(** * fog: the Machine process manager and the LogMux stream multiplexer

    A shallow embedding of [machine.go] and of the log multiplexer of the
    [fog] package, with the properties of its specification stated and
    proved over the embedding.

    Go strings are [string], byte slices are [list byte], the [int] of a
    port number is a [Z].  The operating system, the clock, the entropy
    source and the libraries the package calls ([os/exec], [net],
    [adrg/xdg], [go-colorful]) are oracles in an environment record; what
    the code does to them is recorded as a trace of events. *)

From Stdlib Require Import ZArith Lia.
From Stdlib.Strings Require Import Ascii String Byte.
From stdpp Require Import base tactics option list strings pretty gmap fin_maps.

Open Scope Z_scope.

(** ** Go values *)

(** The result of a Go call that may panic. *)
Inductive outcome (A : Type) : Type :=
| Ret (a : A)
| Panic (v : string).
Arguments Ret {A} a.
Arguments Panic {A} v.

(** Go's [error] values: [errors.New] makes an [errorString], [fmt.Errorf]
    with the verb [%w] makes a [wrapError] that remembers the error it
    wraps. *)
Inductive error : Type :=
| errorString (s : string)
| wrapError (msg : string) (err : error).

Definition Error (e : error) : string :=
  match e with
  | errorString s => s
  | wrapError msg _ => msg
  end.

Definition Unwrap (e : error) : option error :=
  match e with
  | errorString _ => None
  | wrapError _ err => Some err
  end.

Definition errors_New (text : string) : error := errorString text.

(** [fmt.Errorf(prefix + "%w", err)]: every format of the package ends in
    the verb [%w] and has no other verb. *)
Definition fmt_Errorf (prefix : string) (err : error) : error :=
  wrapError (prefix +:+ Error err) err.

(** The pair [(value, error)] returned by a library call. *)
Inductive result (A : Type) : Type :=
| Ok (a : A)
| Err (e : error).
Arguments Ok {A} a.
Arguments Err {A} e.

Definition nil_deref : string :=
  "runtime error: invalid memory address or nil pointer dereference".

(** ** Strings *)

(** [strings.Join]. *)
Definition strings_Join (elems : list string) (sep : string) : string :=
  String.concat sep elems.

(** [strings.Contains]. *)
Fixpoint strings_Contains (s substr : string) : bool :=
  String.prefix substr s ||
  match s with
  | EmptyString => false
  | String _ s' => strings_Contains s' substr
  end.

(** [strings.Count] for a non-empty [substr] that cannot overlap itself:
    the number of positions of [s] at which [substr] starts. *)
Fixpoint count_at (substr s : string) : nat :=
  match s with
  | EmptyString => 0%nat
  | String _ s' =>
      ((if String.prefix substr s then 1 else 0) + count_at substr s')%nat
  end.

Fixpoint has_char (c : ascii) (s : string) : bool :=
  match s with
  | EmptyString => false
  | String a s' => if Ascii.ascii_dec a c then true else has_char c s'
  end.

(** ** encoding/hex *)

Definition hextable : string := "0123456789abcdef".

Definition hexdigit (n : N) : ascii :=
  default "0"%char (String.get (N.to_nat n) hextable).

(** [hex.EncodeToString]: two digits a byte, the high nibble first. *)
Fixpoint hex_EncodeToString (src : list byte) : string :=
  match src with
  | [] => ""
  | v :: src' =>
      String (hexdigit (N.shiftr (Byte.to_N v) 4))
        (String (hexdigit (N.land (Byte.to_N v) 15))
           (hex_EncodeToString src'))
  end.

Definition is_hex_char (c : ascii) : bool :=
  has_char c hextable.

Fixpoint all_hex (s : string) : bool :=
  match s with
  | EmptyString => true
  | String c s' => is_hex_char c && all_hex s'
  end.

(** ** The environment of a Machine *)

(** A [net.Conn]: the connection is identified by the address it was
    dialled at and the instant of the dial. *)
Record net_Conn : Type := { conn_addr : string; conn_since : Z }.

(** What the code does to the outside world, in program order. *)
Inductive event : Type :=
| EvLookPath (file : string)
| EvRuntimeFile (relPath : string)
| EvLogDebug (msg : string) (keyvals : list string)
| EvCmdStart (bin : string) (args : list string)
| EvLock
| EvUnlock
| EvDial (network address : string)
| EvSleep (d : Z).

(** The oracles.  [net_Dial] depends on the instant of the call: the
    listening socket of the guest appears at some time after the spawn. *)
Record Env : Type := {
  exec_LookPath : string → result string;
  xdg_RuntimeFile : string → result string;
  cmd_Start : string → list string → option error;
  net_Dial : Z → string → string → result net_Conn;
}.

(** [time.Second], in nanoseconds, and [time.Millisecond]. *)
Definition time_Second : Z := 1000000000.
Definition time_Millisecond : Z := 1000000.

(** ** machine.go *)

(** Modelled from the spec: the types [MachineConfig] and [Image] are
    declared outside the given sources; [Start] reads the fields [Memory]
    and [Ports] of the configuration (resource sizing, port-forwarding
    rules), and an image is an image reference. *)
Record MachineConfig : Type := { Memory : string; Ports : list string }.

Record Image : Type := { image_ref : string }.

Record Machine : Type := {
  ID : string;
  Name : string;
  Conf : option MachineConfig;
  Img : option Image;
  ImgPath : string;
  addr : string;
  monAddr : string;
  conn : option net_Conn;
}.

Definition set_addr (a : string) (m : Machine) : Machine :=
  {| ID := ID m; Name := Name m; Conf := Conf m; Img := Img m;
     ImgPath := ImgPath m; addr := a; monAddr := monAddr m; conn := conn m |}.

Definition set_monAddr (a : string) (m : Machine) : Machine :=
  {| ID := ID m; Name := Name m; Conf := Conf m; Img := Img m;
     ImgPath := ImgPath m; addr := addr m; monAddr := a; conn := conn m |}.

Definition set_conn (c : option net_Conn) (m : Machine) : Machine :=
  {| ID := ID m; Name := Name m; Conf := Conf m; Img := Img m;
     ImgPath := ImgPath m; addr := addr m; monAddr := monAddr m; conn := c |}.

(** [generateMachineID]: [io.ReadFull] needs 32 bytes of the entropy
    [r]; short of them it fails, with [io.EOF] when it could read no byte
    and with [io.ErrUnexpectedEOF] when it could read some, and the
    function panics with that error. *)
Definition generateMachineID (r : list byte) : outcome string :=
  if decide (32 ≤ length r)%nat
  then Ret (hex_EncodeToString (take 32 r))
  else if decide (length r = 0)%nat then Panic "EOF"
  else Panic "unexpected EOF".

Definition NewMachine (r : list byte) (name : string)
    (conf : option MachineConfig) (img : option Image) (imgPath : string)
  : outcome Machine :=
  match generateMachineID r with
  | Panic v => Panic v
  | Ret id =>
      Ret {| ID := id; Name := name; Conf := conf; Img := img;
             ImgPath := imgPath; addr := ""; monAddr := ""; conn := None |}
  end.

Record StartOptions : Type := { imdsPort : Z }.

(** The [-net user...] argument of [Start], lines 81 to 85 and 109. *)
Definition fwds (ports : list string) : string :=
  if decide (0 < length ports)%nat
  then ",hostfwd=" +:+ strings_Join ports ","
  else "".

(** The argument list of lines 87 to 129. *)
Definition qemu_args (memory imgPath fwds addr ttyAddr monAddr dsUrl : string)
  : list string :=
  [ "-machine"; "accel=kvm:tcg";
    "-cpu"; "host";
    "-m"; memory;
    "-nographic"; "-vga"; "none";
    "-hda"; imgPath; "-snapshot";
    "-net"; "nic";
    "-net"; "user" +:+ fwds;
    "-chardev"; "socket,id=serial,path=" +:+ addr +:+ ",server,nowait";
    "-serial"; "chardev:serial";
    "-chardev"; "socket,id=tty,path=" +:+ ttyAddr +:+ ",server,nowait";
    "-serial"; "chardev:tty";
    "-chardev"; "socket,id=monitor,path=" +:+ monAddr +:+ ",server,nowait";
    "-monitor"; "chardev:monitor";
    "-smbios"; "type=1,serial=ds=nocloud-net;s=" +:+ dsUrl ].

(** What a call leaves behind: the value returned (or the panic), the
    Machine after the call and the events of the call. *)
Record ran (A : Type) : Type := {
  returned : outcome A;
  machine : Machine;
  events : list event;
}.
Arguments returned {A} r.
Arguments machine {A} r.
Arguments events {A} r.

Definition finish {A} (o : outcome A) (m : Machine) (tr : list event) : ran A :=
  {| returned := o; machine := m; events := tr |}.

(** [Machine.Start]: the returned value is the Go [error], [None] for
    [nil]. *)
Definition Start (env : Env) (m : Machine) (opts : option StartOptions)
  : ran (option error) :=
  let tr := [EvLookPath "qemu-system-x86_64"] in
  match exec_LookPath env "qemu-system-x86_64" with
  | Err err => finish (Ret (Some (fmt_Errorf "finding qemu binary: " err))) m tr
  | Ok bin =>
  let rel := "fog/" +:+ ID m +:+ ".sock" in
  let tr := tr ++ [EvRuntimeFile rel] in
  match xdg_RuntimeFile env rel with
  | Err err =>
      finish (Ret (Some (fmt_Errorf "generating socket file path: " err))) m tr
  | Ok addr =>
  let m := set_addr addr m in
  let rel := "fog/" +:+ ID m +:+ "_tty.sock" in
  let tr := tr ++ [EvRuntimeFile rel] in
  match xdg_RuntimeFile env rel with
  | Err err =>
      finish (Ret (Some (fmt_Errorf "generating ttysocket file path: " err))) m tr
  | Ok ttyAddr =>
  let rel := "fog/" +:+ ID m +:+ "_monitor.sock" in
  let tr := tr ++ [EvRuntimeFile rel] in
  match xdg_RuntimeFile env rel with
  | Err err =>
      finish
        (Ret (Some (fmt_Errorf "generating monitor socket file path: " err)))
        m tr
  | Ok monAddr =>
  let m := set_monAddr monAddr m in
  match opts with
  | None => finish (Panic nil_deref) m tr
  | Some opts =>
  let dsUrl :=
    "http://10.0.2.2:" +:+ pretty (imdsPort opts) +:+ "/" +:+ ID m +:+ "/" in
  match Conf m with
  | None => finish (Panic nil_deref) m tr
  | Some conf =>
  let args :=
    qemu_args (Memory conf) (ImgPath m) (fwds (Ports conf))
      addr ttyAddr monAddr dsUrl in
  let tr :=
    tr ++ [EvLogDebug "Starting machine"
             ["name"; Name m; "sock"; addr; "mon"; monAddr];
           EvCmdStart bin args] in
  match cmd_Start env bin args with
  | Some err => finish (Ret (Some (fmt_Errorf "starting machine: " err))) m tr
  | None => finish (Ret None) m tr
  end end end end end end end.

(** The loop of [openConn], with [n] iterations left, at the instant
    [now].  The instants are nominal: a dial is given no duration and a
    sleep the second it asks for, which is the least it can last; the
    trace, the result and the cache do not depend on them. *)
Fixpoint openConn_loop (env : Env) (n : nat) (now : Z) (m : Machine)
    (tr : list event) : ran (option net_Conn * option error) * Z :=
  match n with
  | O =>
      (finish (Ret (None, Some (errors_New "failed to open connection")))
         m (tr ++ [EvUnlock]), now)
  | S n' =>
      let tr := tr ++ [EvDial "unix" (addr m)] in
      match net_Dial env now "unix" (addr m) with
      | Ok c =>
          let m := set_conn (Some c) m in
          (finish (Ret (Some c, None)) m (tr ++ [EvUnlock]), now)
      | Err _ =>
          openConn_loop env n' (now + time_Second) m
            (tr ++ [EvSleep time_Second])
      end
  end.

(** [Machine.openConn], called at the instant [now]; the second component
    is the instant of the return. *)
Definition openConn (env : Env) (now : Z) (m : Machine)
  : ran (option net_Conn * option error) * Z :=
  let tr := [EvLock] in
  match conn m with
  | Some c => (finish (Ret (Some c, None)) m (tr ++ [EvUnlock]), now)
  | None => openConn_loop env 3 now m tr
  end.

(** [Machine.Conn]. *)
Definition Conn (env : Env) (now : Z) (m : Machine)
  : ran (option net_Conn * option error) * Z :=
  let '(r, now') := openConn env now m in
  match returned r with
  | Ret (c, Some err) => (finish (Ret (None, Some err)) (machine r) (events r), now')
  | Ret (c, None) => (finish (Ret (c, None)) (machine r) (events r), now')
  | Panic v => (r, now')
  end.

(** ** The log multiplexer *)

(** A [colorful.Color]: three [float64] channels, kept as their bit
    patterns; the package stores colours and never computes with them. *)
Record Color : Type := { R : N; G : N; B : N }.

(** A [*LogStream] is a location of the heap. *)
Abbreviation loc := nat.

(** A [LogStream] together with the variables [b] and [t] its write
    closure [w] captured: [w_b] is the content of the [bytes.Buffer],
    [w_t] is [None] for a [nil] timer and otherwise holds the instant the
    timer fires at. *)
Record LogStream : Type := {
  name : string;
  clr : Color;
  w_b : list byte;
  w_t : option Z;
}.

Definition set_clr (c : Color) (s : LogStream) : LogStream :=
  {| name := name s; clr := c; w_b := w_b s; w_t := w_t s |}.

Definition set_b (b : list byte) (s : LogStream) : LogStream :=
  {| name := name s; clr := clr s; w_b := b; w_t := w_t s |}.

Definition set_t (t : option Z) (s : LogStream) : LogStream :=
  {| name := name s; clr := clr s; w_b := w_b s; w_t := t |}.

(** The fields of a [LogMux]; the writer [w] is the field [sink] of the
    world below. *)
Record LogMux : Type := {
  streams : gmap string loc;
  bufMs : Z;
  isDirty : bool;
}.

(** The randomness of [go-colorful] and the iteration order the Go
    runtime picks for a [range] over a map.  [rand_color k] is the
    colour [FastHappyColor] makes of the [k]-th draw.
    [palette_color n i k] is the colour [FastHappyPalette] makes of the
    [k]-th draw for the place [i] of a palette of [n] colours: its hue
    is [i * 360 / n], so it depends on the size asked for. *)
Record Runtime : Type := {
  rand_color : nat → Color;
  palette_color : nat → nat → nat → Color;
  range_order : gmap string loc → list (string * loc);
}.

(** The mux, the streams it points to, the clock, the timers started by
    [time.AfterFunc] that have not fired (with the stream whose callback
    they run), the calls of [m.w.Write] so far (with the stream whose
    callback made the call) and the number of colours drawn. *)
Record World : Type := {
  mux : LogMux;
  heap : gmap loc LogStream;
  now : Z;
  timers : list (Z * loc);
  sink : list (loc * list byte);
  draws : nat;
}.

Definition set_mux (m : LogMux) (W : World) : World :=
  {| mux := m; heap := heap W; now := now W; timers := timers W;
     sink := sink W; draws := draws W |}.

Definition set_heap (h : gmap loc LogStream) (W : World) : World :=
  {| mux := mux W; heap := h; now := now W; timers := timers W;
     sink := sink W; draws := draws W |}.

Definition set_now (t : Z) (W : World) : World :=
  {| mux := mux W; heap := heap W; now := t; timers := timers W;
     sink := sink W; draws := draws W |}.

Definition set_timers (q : list (Z * loc)) (W : World) : World :=
  {| mux := mux W; heap := heap W; now := now W; timers := q;
     sink := sink W; draws := draws W |}.

Definition set_sink (k : list (loc * list byte)) (W : World) : World :=
  {| mux := mux W; heap := heap W; now := now W; timers := timers W;
     sink := k; draws := draws W |}.

Definition set_draws (n : nat) (W : World) : World :=
  {| mux := mux W; heap := heap W; now := now W; timers := timers W;
     sink := sink W; draws := n |}.

(** [NewLogMux], in a world whose clock reads [t0]. *)
Definition NewLogMux (t0 : Z) : World :=
  {| mux := {| streams := ∅; bufMs := time_Millisecond * 10; isDirty := false |};
     heap := ∅; now := t0; timers := []; sink := []; draws := 0%nat |}.

(** [colorful.FastHappyColor]: one draw. *)
Definition FastHappyColor (rt : Runtime) (W : World) : Color * World :=
  (rand_color rt (draws W), set_draws (S (draws W)) W).

(** [colorful.FastHappyPalette]: a slice of [colorsCount] colours, the
    one at the place [i] made for that place and that count of a draw
    of its own. *)
Definition FastHappyPalette (rt : Runtime) (colorsCount : nat) (W : World)
  : list Color * World :=
  ((λ i, palette_color rt colorsCount i (draws W + i)%nat)
     <$> seq 0 colorsCount,
   set_draws (draws W + colorsCount)%nat W).

(** The statements of the write closure and of the callback it hands to
    [time.AfterFunc], each one a step of the stream [s]. *)
Inductive instr : Type :=
| IBufWrite (p : list byte)
| ISchedule
| ISinkWrite
| IBufReset
| ITimerClear.

Definition exec (s : loc) (i : instr) (W : World) : World :=
  match heap W !! s with
  | None => W
  | Some st =>
      match i with
      | IBufWrite p => set_heap (<[s := set_b (w_b st ++ p) st]> (heap W)) W
      | ISchedule =>
          match w_t st with
          | Some _ => W
          | None =>
              let d := now W + bufMs (mux W) in
              set_timers (timers W ++ [(d, s)])
                (set_heap (<[s := set_t (Some d) st]> (heap W)) W)
          end
      | ISinkWrite => set_sink (sink W ++ [(s, w_b st)]) W
      | IBufReset => set_heap (<[s := set_b [] st]> (heap W)) W
      | ITimerClear => set_heap (<[s := set_t None st]> (heap W)) W
      end
  end.

Definition exec_all (s : loc) (prog : list instr) (W : World) : World :=
  foldl (λ W i, exec s i W) W prog.

(** Lines 58 to 70: [b.Write(p)], then the timer if there is none. *)
Definition write_closure (p : list byte) : list instr :=
  [IBufWrite p; ISchedule].

(** Lines 66 to 68. *)
Definition flush_callback : list instr :=
  [ISinkWrite; IBufReset; ITimerClear].

(** [LogStream.Write], with no other thread of control running: the
    closure [s.w] runs to its end and returns [len(p), nil].  This is
    the call as it goes when it overlaps no callback of its stream; the
    statements of a call that does are run by [interleave] and [race]
    below. *)
Definition Write (s : loc) (p : list byte) (W : World)
  : outcome (Z * option error) * World :=
  match heap W !! s with
  | None => (Panic nil_deref, W)
  | Some _ => (Ret (Z.of_nat (length p), None), exec_all s (write_closure p) W)
  end.

(** The timers that are due at the instant [τ] fire, in the order they
    were started in; a callback starts no timer.  Each callback runs to
    its end before anything else does: this is the clock of a program
    none of whose calls overlaps a callback.  The source runs a callback
    on a goroutine of its own and takes no lock, so a call can overlap
    it; [fire_async] starts such a callback. *)
Fixpoint fire_due (τ : Z) (q : list (Z * loc)) (W : World)
  : list (Z * loc) * World :=
  match q with
  | [] => ([], W)
  | (d, s) :: q' =>
      if decide (d ≤ τ)
      then fire_due τ q' (exec_all s flush_callback W)
      else let '(r, W') := fire_due τ q' W in ((d, s) :: r, W')
  end.

(** The clock moves on to [τ]. *)
Definition advance (τ : Z) (W : World) : World :=
  let '(q, W') := fire_due τ (timers W) W in
  set_now (Z.max (now W) τ) (set_timers q W').

(** [LogMux.Stream]: the colour is drawn before the lock is taken, so a
    call that panics has drawn one too. *)
Definition Stream (rt : Runtime) (name_ : string) (W : World)
  : outcome loc * World :=
  let '(c, W) := FastHappyColor rt W in
  match streams (mux W) !! name_ with
  | Some _ => (Panic ("Stream " +:+ name_ +:+ " already exists"), W)
  | None =>
      let s := fresh (dom (heap W)) in
      let st := {| name := name_; clr := c; w_b := []; w_t := None |} in
      let m := {| streams := <[name_ := s]> (streams (mux W));
                  bufMs := bufMs (mux W); isDirty := true |} in
      (Ret s, set_mux m (set_heap (<[s := st]> (heap W)) W))
  end.

(** The loop of [refreshColors]: [v.clr = pal[i]; i++] for every value of
    the map, in the order of the [range]. *)
Fixpoint recolor (pal : list Color) (i : nat) (vs : list loc)
    (h : gmap loc LogStream) : outcome (gmap loc LogStream) :=
  match vs with
  | [] => Ret h
  | v :: vs' =>
      match pal !! i with
      | None => Panic "runtime error: index out of range"
      | Some c =>
          match h !! v with
          | None => Panic nil_deref
          | Some st => recolor pal (S i) vs' (<[v := set_clr c st]> h)
          end
      end
  end.

(** [LogMux.refreshColors]. *)
Definition refreshColors (rt : Runtime) (W : World) : outcome unit * World :=
  if negb (isDirty (mux W)) then (Ret (), W)
  else
    let '(pal, W1) := FastHappyPalette rt (size (streams (mux W))) W in
    match recolor pal 0 (range_order rt (streams (mux W))).*2 (heap W1) with
    | Panic v => (Panic v, W1)
    | Ret h =>
        let m := {| streams := streams (mux W1); bufMs := bufMs (mux W1);
                    isDirty := false |} in
        (Ret (), set_mux m (set_heap h W1))
    end.

(** A caller of the mux: at the instant [fst], either a [Write] or
    nothing but the passing of time. *)
Inductive action : Type :=
| AWrite (s : loc) (p : list byte)
| AWait.

Definition act (W : World) (a : Z * action) : World :=
  let W := advance a.1 W in
  match a.2 with
  | AWrite s p => (Write s p W).2
  | AWait => W
  end.

Definition run (W : World) (l : list (Z * action)) : World :=
  foldl act W l.

(** What the sink received from the callback of the stream [s]. *)
Definition flushes (s : loc) (W : World) : list (list byte) :=
  (filter (λ c, c.1 = s) (sink W)).*2.

(** Threads of control that run together: each has the stream it works
    on and the statements it has still to run; a schedule names, step by
    step, the thread that runs its next statement. *)
Fixpoint interleave (sched : list nat) (ths : list (loc * list instr))
    (W : World) : list (loc * list instr) * World :=
  match sched with
  | [] => (ths, W)
  | k :: sched' =>
      match ths !! k with
      | Some (s, i :: rest) =>
          interleave sched' (<[k := (s, rest)]> ths) (exec s i W)
      | _ => interleave sched' ths W
      end
  end.

(** The timer of the stream [s] fires while other threads of control
    run: the Go runtime takes it off its queue and starts a goroutine
    for the callback, whose statements are still to run. *)
Definition fire_async (τ : Z) (s : loc) (W : World)
  : (loc * list instr) * World :=
  ((s, flush_callback),
   set_now (Z.max (now W) τ)
     (set_timers (filter (λ e, e.2 ≠ s) (timers W)) W)).

(** ** Vocabulary of the statements *)

(** The process a trace ends in launching, if it does. *)
Definition launch (tr : list event) : option (string * list string) :=
  match last tr with
  | Some (EvCmdStart bin args) => Some (bin, args)
  | _ => None
  end.

(** What [xdg.RuntimeFile] is relied on for: the path it returns is the
    relative path it was given, under some base directory. *)
Definition xdg_joins (env : Env) : Prop :=
  ∀ rel p, xdg_RuntimeFile env rel = Ok p → ∃ base, p = base +:+ "/" +:+ rel.

(** The three suffixes [Start] gives to the socket files. *)
Definition socket_suffixes : list string :=
  [".sock"; "_tty.sock"; "_monitor.sock"].

(** [k] failed attempts of [openConn] at the address [a]. *)
Definition failed_dials (a : string) (k : nat) : list event :=
  mjoin (replicate k [EvDial "unix" a; EvSleep time_Second]).

Definition is_dial (e : event) : bool :=
  match e with EvDial _ _ => true | _ => false end.

(** The bytes written to the stream [s] by a list of calls, in order. *)
Fixpoint written (s : loc) (l : list (Z * action)) : list byte :=
  match l with
  | [] => []
  | (_, AWrite s' p) :: l' =>
      if decide (s' = s) then p ++ written s l' else written s l'
  | (_, AWait) :: l' => written s l'
  end.

(** A stream with nothing buffered and no flush scheduled. *)
Definition idle (s : loc) (W : World) : Prop :=
  ∃ st, heap W !! s = Some st ∧ w_b st = [] ∧ w_t st = None ∧
        ∀ d, (d, s) ∉ timers W.

(** The worlds a program can bring a mux to. *)
Inductive reachable (rt : Runtime) : World → Prop :=
| reach_new t0 : reachable rt (NewLogMux t0)
| reach_Stream W n : reachable rt W → reachable rt (Stream rt n W).2
| reach_Write W s p : reachable rt W → reachable rt (Write s p W).2
| reach_refresh W : reachable rt W → reachable rt (refreshColors rt W).2
| reach_advance W τ : reachable rt W → reachable rt (advance τ W).

(** What holds of every world a program can reach: a registered name
    points to a stream of that name; a timer that has not fired belongs
    to a stream whose [t] holds it; no stream has two timers; the
    window is the ten milliseconds of [NewLogMux]. *)
Record consistent (W : World) : Prop := {
  streams_alloc : ∀ n s, streams (mux W) !! n = Some s →
                         ∃ st, heap W !! s = Some st ∧ name st = n;
  timers_set : ∀ d s, (d, s) ∈ timers W →
                      ∃ st, heap W !! s = Some st ∧ w_t st = Some d;
  timers_once : NoDup (timers W).*2;
  window : bufMs (mux W) = time_Millisecond * 10;
}.

(** A stream that is collecting writes: [B] is buffered, the flush is
    due at the instant [D], which has not come, and the sink has
    received [F] from the stream so far. *)
Definition filling (s : loc) (B : list byte) (D : Z) (F : list (list byte))
    (W : World) : Prop :=
  consistent W ∧ now W < D ∧ (D, s) ∈ timers W ∧ flushes s W = F ∧
  ∃ st, heap W !! s = Some st ∧ w_b st = B ∧ w_t st = Some D.

(** The schedule in which the callback has handed the buffer to the
    sink, a [Write] runs to its end, and the callback goes on. *)
Definition racy_schedule : list nat := [0; 1; 1; 0; 0]%nat.

(** ** Sample inputs *)

(** An environment in which the binary is found, the runtime directory is
    [/run/user/1000], the process starts, and the socket accepts
    connections from the instant [up] on. *)
Definition env_up (up : Z) : Env :=
  {| exec_LookPath := λ file, Ok ("/usr/bin/" +:+ file);
     xdg_RuntimeFile := λ rel, Ok ("/run/user/1000" +:+ "/" +:+ rel);
     cmd_Start := λ _ _, None;
     net_Dial := λ t _ a,
       if decide (up ≤ t) then Ok {| conn_addr := a; conn_since := t |}
       else Err (errorString "connect: no such file or directory") |}.

(** An environment in which the socket never appears. *)
Definition env_down : Env :=
  {| exec_LookPath := λ file, Ok ("/usr/bin/" +:+ file);
     xdg_RuntimeFile := λ rel, Ok ("/run/user/1000" +:+ "/" +:+ rel);
     cmd_Start := λ _ _, None;
     net_Dial := λ _ _ _,
       Err (errorString "connect: no such file or directory") |}.

Definition sample_machine (r : list byte) (ports : list string) : outcome Machine :=
  NewMachine r "vm" (Some {| Memory := "1G"; Ports := ports |}) None "/img".

Definition machine_of (o : outcome Machine) : Machine :=
  match o with
  | Ret m => m
  | Panic _ =>
      {| ID := ""; Name := ""; Conf := None; Img := None; ImgPath := "";
         addr := ""; monAddr := ""; conn := None |}
  end.

Definition entropy_a : list byte := replicate 32 "a"%byte.
Definition entropy_b : list byte := replicate 32 "b"%byte.

Definition sample_opts : option StartOptions := Some {| imdsPort := 8080 |}.

(** A runtime whose [k]-th colour has [k] in its red channel, whose
    palette colours also have the size of the palette in the green
    channel and their place in the blue one, and whose [range] follows
    the order of [map_to_list]. *)
Definition sample_rt : Runtime :=
  {| rand_color := λ k, {| R := N.of_nat k; G := 0; B := 0 |};
     palette_color := λ n i k,
       {| R := N.of_nat k; G := N.of_nat n; B := N.of_nat i |};
     range_order := map_to_list |}.

(** A mux with the streams [web] and [db], at the locations 0 and 1. *)
Definition sample_world : World :=
  (Stream sample_rt "db" (Stream sample_rt "web" (NewLogMux 0)).2).2.

Definition bytes_a : list byte := list_byte_of_string "a".
Definition bytes_b : list byte := list_byte_of_string "b".

(** An environment without the qemu binary. *)
Definition env_nobin : Env :=
  {| exec_LookPath := λ _,
       Err (errorString "executable file not found in $PATH");
     xdg_RuntimeFile := λ rel, Ok ("/run/user/1000" +:+ "/" +:+ rel);
     cmd_Start := λ _ _, None;
     net_Dial := λ _ _ _,
       Err (errorString "connect: no such file or directory") |}.

(** A machine whose [Start] has run in [env_down]. *)
Definition started_machine : Machine :=
  machine (Start env_down (machine_of (sample_machine entropy_a [])) sample_opts).

Definition machine_a : Machine := machine_of (sample_machine entropy_a []).
Definition machine_b : Machine := machine_of (sample_machine entropy_b []).

Definition args_of (r : ran (option error)) : list string :=
  match launch (events r) with
  | Some (_, args) => args
  | None => []
  end.

(** Five, twenty and forty milliseconds. *)
Definition ms (k : Z) : Z := k * time_Millisecond.

(** A machine built by hand, with the identity [id]. *)
Definition handmade_machine (id : string) : Machine :=
  {| ID := id; Name := "vm"; Conf := Some {| Memory := "1G"; Ports := [] |};
     Img := None; ImgPath := "/img"; addr := ""; monAddr := ""; conn := None |}.

(** The stream [web] has taken the write of [a] at the instant 0 and its
    timer has just fired, at ten milliseconds: the world in which the
    callback starts to run. *)
Definition race_start : World :=
  (fire_async (ms 10) 0%nat (Write 0%nat bytes_a sample_world).2).2.

(** The callback and a [Write] of [b] to the same stream. *)
Definition race_threads : list (loc * list instr) :=
  [(fire_async (ms 10) 0%nat (Write 0%nat bytes_a sample_world).2).1;
   (0%nat, write_closure bytes_b)].

Definition race_end (sched : list nat) : World :=
  (interleave sched race_threads race_start).2.

(** ** Further vocabulary *)

(** The value of a hexadecimal digit, the inverse of [hexdigit] on the
    sixteen digits; other characters count as 0. *)
Definition unhex (c : ascii) : N :=
  match String.index 0 (String c "") hextable with
  | Some i => N.of_nat i
  | None => 0%N
  end.

Definition is_launch (e : event) : bool :=
  match e with EvCmdStart _ _ => true | _ => false end.

Definition is_lock (e : event) : bool :=
  match e with EvLock => true | _ => false end.

Definition is_unlock (e : event) : bool :=
  match e with EvUnlock => true | _ => false end.

Definition is_sleep (e : event) : bool :=
  match e with EvSleep _ => true | _ => false end.

(** The instant of the [k]-th dial of [openConn], counted from 0, for a
    call made at [now]. *)
Definition dial_instant (now : Z) (k : nat) : Z :=
  now + Z.of_nat k * time_Second.

(** A call into the mux, or the clock moving on to [τ]. *)
Inductive call : Type :=
| CStream (n : string)
| CWrite (s : loc) (p : list byte)
| CRefresh
| CTick (τ : Z).

Definition perform (rt : Runtime) (W : World) (c : call) : World :=
  match c with
  | CStream n => (Stream rt n W).2
  | CWrite s p => (Write s p W).2
  | CRefresh => (refreshColors rt W).2
  | CTick τ => advance τ W
  end.

Definition perform_all (rt : Runtime) (W : World) (cs : list call) : World :=
  foldl (perform rt) W cs.

(** The bytes a script writes to the stream [s], in order. *)
Fixpoint wrote (s : loc) (cs : list call) : list byte :=
  match cs with
  | [] => []
  | CWrite s' p :: cs' =>
      if decide (s' = s) then p ++ wrote s cs' else wrote s cs'
  | _ :: cs' => wrote s cs'
  end.

(** What the buffer of the stream [s] holds. *)
Definition buffered (s : loc) (W : World) : list byte :=
  match heap W !! s with
  | Some st => w_b st
  | None => []
  end.

(** All the bytes the sink has received from the stream [s]. *)
Definition delivered (s : loc) (W : World) : list byte :=
  mjoin (flushes s W).

(** A second part of what holds of every reachable world: a stream
    whose [t] is set has its timer pending; a pending timer is due no
    later than a window from now; a stream with no timer has an empty
    buffer. *)
Record settled (W : World) : Prop := {
  t_pending : ∀ s st d, heap W !! s = Some st → w_t st = Some d →
                        (d, s) ∈ timers W;
  deadline_near : ∀ d s, (d, s) ∈ timers W → d ≤ now W + bufMs (mux W);
  no_stranded : ∀ s st, heap W !! s = Some st → w_t st = None → w_b st = [];
}.

(** ** The buffer, one step of the library at a time *)

(** [b.Write(p)] is [bytes.Buffer.Write], which the Go library runs in
    two steps: it grows the slice [b.buf] by [len(p)] (in
    [tryGrowByReslice] or [grow]) and keeps the length [m] the slice had,
    then it runs [copy(b.buf[m:], p)], where the slice expression panics
    if [m] is past the length the slice has by then.  [b.Reset()] cuts
    the slice to length 0.  A [micro] is one of these two steps or a
    whole statement of the closure or of the callback. *)
Inductive micro : Type :=
| MGrow (p : list byte)
| MCopy (p : list byte)
| MStmt (i : instr).

(** The panic of a slice expression [x[m:]] on a slice of length [len]. *)
Definition slice_bounds (m len : nat) : string :=
  "runtime error: slice bounds out of range [" +:+ pretty m +:+ ":" +:+
  pretty len +:+ "]".

(** A thread of control: the stream it works on, the [m] its
    [b.Write] has kept, and the steps it has still to run. *)
Record thread : Type := {
  th_stream : loc;
  th_m : nat;
  th_code : list micro;
}.

(** One step; the bytes the slice gains when it grows are zero until
    they are copied over. *)
Definition micro_step (s : loc) (m : nat) (i : micro) (W : World)
  : outcome (nat * World) :=
  match i with
  | MStmt i => Ret (m, exec s i W)
  | MGrow p =>
      match heap W !! s with
      | None => Ret (m, W)
      | Some st =>
          Ret (length (w_b st),
               set_heap
                 (<[s := set_b (w_b st ++ replicate (length p) x00) st]>
                    (heap W)) W)
      end
  | MCopy p =>
      match heap W !! s with
      | None => Ret (m, W)
      | Some st =>
          if decide (m ≤ length (w_b st))%nat
          then Ret (m,
                    set_heap
                      (<[s := set_b (take m (w_b st)
                                     ++ take (length (w_b st) - m) p
                                     ++ drop (m + length p) (w_b st)) st]>
                         (heap W)) W)
          else Panic (slice_bounds m (length (w_b st)))
      end
  end.

(** The threads run together, a step at a time, as the schedule names
    them; a panic in one of them ends the program. *)
Fixpoint race (sched : list nat) (ths : list thread) (W : World)
  : outcome (list thread * World) :=
  match sched with
  | [] => Ret (ths, W)
  | k :: sched' =>
      match ths !! k with
      | Some {| th_stream := s; th_m := m; th_code := i :: rest |} =>
          match micro_step s m i W with
          | Panic v => Panic v
          | Ret (m', W') =>
              race sched'
                (<[k := {| th_stream := s; th_m := m'; th_code := rest |}]> ths)
                W'
          end
      | _ => race sched' ths W
      end
  end.

(** The write closure, lines 58 to 70, with [b.Write(p)] in its two
    steps. *)
Definition write_steps (s : loc) (p : list byte) : thread :=
  {| th_stream := s; th_m := 0; th_code := [MGrow p; MCopy p; MStmt ISchedule] |}.

(** A callback that [fire_async] has started. *)
Definition callback_steps (cb : loc * list instr) : thread :=
  {| th_stream := cb.1; th_m := 0; th_code := MStmt <$> cb.2 |}.

(** The schedule in which a [Write] has grown the slice, the callback
    hands the buffer to the sink and resets it, and the [Write] goes on
    to its copy. *)
Definition reset_in_write : list nat := [1; 0; 0; 1]%nat.

(** * Properties of machine.go *)

Section StartFacts.
Variables (env : Env) (m : Machine) (opts : option StartOptions).

(** When [Start] reaches the launch, every step before it succeeded and
    the arguments are those of lines 87 to 129. *)
Lemma Start_launch_inv bin args :
  launch (events (Start env m opts)) = Some (bin, args) →
  ∃ a t mo o conf,
    exec_LookPath env "qemu-system-x86_64" = Ok bin ∧
    xdg_RuntimeFile env ("fog/" +:+ ID m +:+ ".sock") = Ok a ∧
    xdg_RuntimeFile env ("fog/" +:+ ID m +:+ "_tty.sock") = Ok t ∧
    xdg_RuntimeFile env ("fog/" +:+ ID m +:+ "_monitor.sock") = Ok mo ∧
    opts = Some o ∧ Conf m = Some conf ∧
    addr (machine (Start env m opts)) = a ∧
    monAddr (machine (Start env m opts)) = mo ∧
    args =
      qemu_args (Memory conf) (ImgPath m) (fwds (Ports conf)) a t mo
        ("http://10.0.2.2:" +:+ pretty (imdsPort o) +:+ "/" +:+ ID m +:+ "/").
Proof.
  unfold Start.
  destruct (exec_LookPath env _) as [bin'|e0] eqn:Hbin; [|discriminate].
  destruct (xdg_RuntimeFile env ("fog/" +:+ ID m +:+ ".sock"))
    as [a|e1] eqn:Ha; [|discriminate].
  cbn [ID set_addr set_monAddr Conf Name ImgPath].
  destruct (xdg_RuntimeFile env ("fog/" +:+ ID m +:+ "_tty.sock"))
    as [t|e2] eqn:Ht; [|discriminate].
  destruct (xdg_RuntimeFile env ("fog/" +:+ ID m +:+ "_monitor.sock"))
    as [mo|e3] eqn:Hmo; [|discriminate].
  destruct opts as [o|]; [|discriminate].
  destruct (Conf m) as [conf|] eqn:Hconf; [|discriminate].
  destruct (cmd_Start env bin' _); cbn; intros [= <- <-];
    exists a, t, mo, o, conf; repeat split; reflexivity.
Qed.

(** The launch does happen when the environment lets every step
    through. *)
Lemma Start_launches bin a t mo o conf :
  exec_LookPath env "qemu-system-x86_64" = Ok bin →
  xdg_RuntimeFile env ("fog/" +:+ ID m +:+ ".sock") = Ok a →
  xdg_RuntimeFile env ("fog/" +:+ ID m +:+ "_tty.sock") = Ok t →
  xdg_RuntimeFile env ("fog/" +:+ ID m +:+ "_monitor.sock") = Ok mo →
  opts = Some o → Conf m = Some conf →
  ∃ args, launch (events (Start env m opts)) = Some (bin, args).
Proof.
  intros Hbin Ha Ht Hmo -> Hconf. unfold Start.
  rewrite Hbin, Ha. cbn [ID set_addr set_monAddr Conf Name ImgPath].
  rewrite Ht, Hmo, Hconf.
  destruct (cmd_Start env bin _); cbn; eauto.
Qed.
End StartFacts.

(** ** The networking argument *)

Lemma append_nil_l s : "" +:+ s = s.
Proof. reflexivity. Qed.

Lemma append_cons_l a s s' : String a s +:+ s' = String a (s +:+ s').
Proof. reflexivity. Qed.

Lemma prefix_empty s : String.prefix "" s = true.
Proof. by destruct s. Qed.

Lemma prefix_app_sep pat s1 c s2 :
  has_char c pat = false →
  String.prefix pat (s1 +:+ String c s2) = String.prefix pat s1.
Proof.
  revert s1. induction pat as [|a pat IH]; intros s1 Hc.
  - by rewrite !prefix_empty.
  - cbn [has_char] in Hc. destruct (Ascii.ascii_dec a c) as [|Hac]; [done|].
    destruct s1 as [|b s1];
      rewrite ?append_nil_l, ?append_cons_l; cbn [String.prefix].
    + by destruct (Ascii.ascii_dec a c).
    + destruct (Ascii.ascii_dec a b); [by apply IH|done].
Qed.

(** A pattern without the separator occurs in [s1 sep s2] where it
    occurs in [s1] or in [s2]. *)
Lemma count_at_app_sep a pat s1 c s2 :
  has_char c (String a pat) = false →
  count_at (String a pat) (s1 +:+ String c s2) =
  (count_at (String a pat) s1 + count_at (String a pat) s2)%nat.
Proof.
  intros Hc. induction s1 as [|b s1 IH].
  - cbn [has_char] in Hc. rewrite append_nil_l. cbn [count_at String.prefix].
    by destruct (Ascii.ascii_dec a c).
  - rewrite append_cons_l. cbn [count_at]. rewrite IH.
    rewrite <- append_cons_l, prefix_app_sep by done. lia.
Qed.

Lemma count_at_Join a pat c (elems : list string) :
  has_char c (String a pat) = false →
  count_at (String a pat) (strings_Join elems (String c "")) =
  sum_list_with (count_at (String a pat)) elems.
Proof.
  intros Hc. unfold strings_Join.
  induction elems as [|x [|y elems] IH]; [done|cbn; lia|].
  change (String.concat (String c "") (x :: y :: elems))
    with (x +:+ String c (String.concat (String c "") (y :: elems))).
  rewrite count_at_app_sep by done. rewrite IH. done.
Qed.

(** The key of the argument itself: it starts at one place of
    [user,hostfwd=], and nowhere across the end of it. *)
Lemma count_at_user_hostfwd j :
  count_at "hostfwd=" ("user,hostfwd=" +:+ j) = S (count_at "hostfwd=" j).
Proof. destruct j; vm_compute; reflexivity. Qed.

Lemma fwds_nonempty r (rules : list string) :
  fwds (r :: rules) = ",hostfwd=" +:+ strings_Join (r :: rules) ",".
Proof. done. Qed.

(** C4: when [Start] launches the process for a configuration whose
    port-forward rules are exactly [tcp::2222-:22], the argument after
    the second [-net] flag is [user,hostfwd=tcp::2222-:22], which
    contains [hostfwd=tcp::2222-:22]; when the rule list is empty, that
    argument is exactly [user] and contains no [hostfwd]. *)
Theorem Start_hostfwd_single_and_none env m opts conf bin args :
  Conf m = Some conf →
  launch (events (Start env m opts)) = Some (bin, args) →
  args !! 14%nat = Some "-net" ∧
  (Ports conf = ["tcp::2222-:22"] →
     ∃ v, args !! 15%nat = Some v ∧ v = "user,hostfwd=tcp::2222-:22" ∧
          strings_Contains v "hostfwd=tcp::2222-:22" = true) ∧
  (Ports conf = [] →
     ∃ v, args !! 15%nat = Some v ∧ v = "user" ∧
          strings_Contains v "hostfwd" = false).
Proof.
  intros Hconf Hl.
  destruct (Start_launch_inv _ _ _ _ _ Hl)
    as (a & t & mo & o & conf' & _ & _ & _ & _ & _ & Hc & _ & _ & ->).
  assert (conf' = conf) as -> by congruence.
  split; [done|]. split; intros ->; eexists; (split; [done|]); by vm_compute.
Qed.

Lemma Start_hostfwd_single_and_none_witness :
  (qemu_args "1G" "/img" (fwds ["tcp::2222-:22"])
     "/run/user/1000/fog/aa.sock" "/run/user/1000/fog/aa_tty.sock"
     "/run/user/1000/fog/aa_monitor.sock" "http://10.0.2.2:8080/aa/")
    !! 14%nat = Some "-net" ∧
  (["tcp::2222-:22"] = ["tcp::2222-:22"] →
     ∃ v, (qemu_args "1G" "/img" (fwds ["tcp::2222-:22"])
             "/run/user/1000/fog/aa.sock" "/run/user/1000/fog/aa_tty.sock"
             "/run/user/1000/fog/aa_monitor.sock" "http://10.0.2.2:8080/aa/")
            !! 15%nat = Some v ∧ v = "user,hostfwd=tcp::2222-:22" ∧
          strings_Contains v "hostfwd=tcp::2222-:22" = true) ∧
  (["tcp::2222-:22"] = [] →
     ∃ v, (qemu_args "1G" "/img" (fwds ["tcp::2222-:22"])
             "/run/user/1000/fog/aa.sock" "/run/user/1000/fog/aa_tty.sock"
             "/run/user/1000/fog/aa_monitor.sock" "http://10.0.2.2:8080/aa/")
            !! 15%nat = Some v ∧ v = "user" ∧
          strings_Contains v "hostfwd" = false).
Proof.
  apply (Start_hostfwd_single_and_none (env_up 0)
           {| ID := "aa"; Name := "vm";
              Conf := Some {| Memory := "1G"; Ports := ["tcp::2222-:22"] |};
              Img := None; ImgPath := "/img"; addr := ""; monAddr := "";
              conn := None |}
           sample_opts {| Memory := "1G"; Ports := ["tcp::2222-:22"] |}
           "/usr/bin/qemu-system-x86_64");
    reflexivity.
Defined.

(** C10: for a configuration with two or more port-forward rules the
    argument after the second [-net] flag is exactly [user,hostfwd=]
    followed by the rules joined with commas; the code puts the key
    [hostfwd=] there once, before the first rule: the key starts at as
    many places of the argument as it does inside the rules, and at one
    more. *)
Theorem Start_hostfwd_joined env m opts conf bin args :
  Conf m = Some conf →
  (2 ≤ length (Ports conf))%nat →
  launch (events (Start env m opts)) = Some (bin, args) →
  ∃ v, args !! 15%nat = Some v ∧
       v = "user,hostfwd=" +:+ strings_Join (Ports conf) "," ∧
       count_at "hostfwd=" v =
       S (sum_list_with (count_at "hostfwd=") (Ports conf)).
Proof.
  intros Hconf Hlen Hl.
  destruct (Start_launch_inv _ _ _ _ _ Hl)
    as (a & t & mo & o & conf' & _ & _ & _ & _ & _ & Hc & _ & _ & ->).
  assert (conf' = conf) as -> by congruence.
  destruct (Ports conf) as [|r rules] eqn:Hp; [cbn in Hlen; lia|].
  eexists. split; [reflexivity|]. rewrite fwds_nonempty. split; [done|].
  rewrite <- (count_at_Join "h" "ostfwd=" "," (r :: rules)) by done.
  apply count_at_user_hostfwd.
Qed.

Lemma Start_hostfwd_joined_witness :
  ∃ v, (qemu_args "1G" "/img" (fwds ["tcp::2222-:22"; "tcp::8080-:80"])
          "/run/user/1000/fog/aa.sock" "/run/user/1000/fog/aa_tty.sock"
          "/run/user/1000/fog/aa_monitor.sock" "http://10.0.2.2:8080/aa/")
         !! 15%nat = Some v ∧
       v = "user,hostfwd=" +:+
           strings_Join ["tcp::2222-:22"; "tcp::8080-:80"] "," ∧
       count_at "hostfwd=" v =
       S (sum_list_with (count_at "hostfwd=")
            ["tcp::2222-:22"; "tcp::8080-:80"]).
Proof.
  apply (Start_hostfwd_joined (env_up 0)
           {| ID := "aa"; Name := "vm";
              Conf := Some {| Memory := "1G";
                              Ports := ["tcp::2222-:22"; "tcp::8080-:80"] |};
              Img := None; ImgPath := "/img"; addr := ""; monAddr := "";
              conn := None |}
           sample_opts
           {| Memory := "1G"; Ports := ["tcp::2222-:22"; "tcp::8080-:80"] |}
           "/usr/bin/qemu-system-x86_64");
    [reflexivity | cbn; lia | reflexivity].
Defined.

(** ** The connection *)

(** C2: with no cached connection, [Conn] dials the primary socket path
    at most three times, and nothing else; every failed attempt is
    followed by a sleep of one second, so one second lies between two
    attempts; when the three dials fail it returns the nil connection
    and the error [failed to open connection], leaves the cache unset,
    and has dialled exactly three times. *)
Theorem Conn_bounded_retries env now m :
  conn m = None →
  let r := (Conn env now m).1 in
  (length (filter (λ ev, is_dial ev = true) (events r)) ≤ 3)%nat ∧
  (∀ ev, ev ∈ events r → is_dial ev = true → ev = EvDial "unix" (addr m)) ∧
  (∃ k, (k ≤ 3)%nat ∧
     (events r = [EvLock] ++ failed_dials (addr m) k ++ [EvUnlock] ∧ k = 3%nat
      ∨ events r = [EvLock] ++ failed_dials (addr m) k
                     ++ [EvDial "unix" (addr m); EvUnlock] ∧ (k < 3)%nat)) ∧
  ((∃ e1 e2 e3,
      net_Dial env now "unix" (addr m) = Err e1 ∧
      net_Dial env (now + time_Second) "unix" (addr m) = Err e2 ∧
      net_Dial env (now + time_Second + time_Second) "unix" (addr m) = Err e3) →
   returned r = Ret (None, Some (errors_New "failed to open connection")) ∧
   machine r = m ∧ conn (machine r) = None ∧
   events r =
     [EvLock;
      EvDial "unix" (addr m); EvSleep time_Second;
      EvDial "unix" (addr m); EvSleep time_Second;
      EvDial "unix" (addr m); EvSleep time_Second;
      EvUnlock] ∧
   (Conn env now m).2 = now + 3 * time_Second).
Proof.
  intros Hc. unfold Conn, openConn. rewrite Hc. cbn [openConn_loop].
  destruct (net_Dial env now "unix" (addr m)) as [c1|e1] eqn:H1;
    [|destruct (net_Dial env (now + time_Second) "unix" (addr m))
        as [c2|e2] eqn:H2;
      [|destruct (net_Dial env (now + time_Second + time_Second) "unix" (addr m))
          as [c3|e3] eqn:H3]];
    cbn; (split; [repeat case_decide; try done; cbn; lia|]);
    (split;
     [intros ev Hin Hd;
      repeat (apply elem_of_cons in Hin as [->|Hin]; try done);
      by apply elem_of_nil in Hin|]).
  - split; [exists 0%nat; split; [lia|]; right; split; [done|lia]|].
    intros (? & ? & ? & He & _); discriminate.
  - split; [exists 1%nat; split; [lia|]; right; split; [done|lia]|].
    intros (? & ? & ? & _ & He & _); discriminate.
  - split; [exists 2%nat; split; [lia|]; right; split; [done|lia]|].
    intros (? & ? & ? & _ & _ & He); discriminate.
  - split; [exists 3%nat; split; [lia|]; left; done|].
    intros _. repeat split; try done. lia.
Qed.

Lemma Conn_bounded_retries_witness :
  returned (Conn env_down 0 started_machine).1 =
    Ret (None, Some (errors_New "failed to open connection")) ∧
  conn (machine (Conn env_down 0 started_machine).1) = None ∧
  (length (filter (λ ev, is_dial ev = true)
             (events (Conn env_down 0 started_machine).1)) ≤ 3)%nat.
Proof.
  destruct (Conn_bounded_retries env_down 0 started_machine eq_refl)
    as (Hn & _ & _ & Hfail).
  destruct Hfail as (Hr & _ & Hc & _).
  - do 3 eexists. repeat split; reflexivity.
  - repeat split; assumption.
Defined.

(** ** Errors *)

(** What [Start] returns when the binary is not found. *)
Lemma Start_nobin env m opts err :
  exec_LookPath env "qemu-system-x86_64" = Err err →
  returned (Start env m opts) =
    Ret (Some (fmt_Errorf "finding qemu binary: " err)).
Proof. intros H. unfold Start. by rewrite H. Qed.

(** C6, as the specification states it, does not hold: the error [Conn]
    returns after its three dials wraps no cause, whatever error the
    dials failed with. *)
Lemma Conn_error_wraps_no_cause :
  ¬ (∀ env now m c e,
       conn m = None →
       returned (Conn env now m).1 = Ret (c, Some e) →
       ∃ cause, Unwrap e = Some cause).
Proof.
  intros H.
  destruct (H env_down 0 started_machine None
              (errors_New "failed to open connection") eq_refl eq_refl)
    as [cause Hcause].
  discriminate Hcause.
Qed.

(** C6, amended: every error [Start] returns is made by [fmt.Errorf]
    from the name of the failing step and the error of the call that
    failed, which it wraps and whose message it ends in; the only error
    [Conn] returns is the fixed [failed to open connection], which names
    the operation and wraps nothing. *)
Theorem errors_name_the_step env m opts now :
  (∀ e, returned (Start env m opts) = Ret (Some e) →
     ∃ step cause,
       e = fmt_Errorf step cause ∧ Unwrap e = Some cause ∧
       Error e = step +:+ Error cause ∧
       (step = "finding qemu binary: " ∧
        exec_LookPath env "qemu-system-x86_64" = Err cause
        ∨ step = "generating socket file path: " ∧
          xdg_RuntimeFile env ("fog/" +:+ ID m +:+ ".sock") = Err cause
        ∨ step = "generating ttysocket file path: " ∧
          xdg_RuntimeFile env ("fog/" +:+ ID m +:+ "_tty.sock") = Err cause
        ∨ step = "generating monitor socket file path: " ∧
          xdg_RuntimeFile env ("fog/" +:+ ID m +:+ "_monitor.sock") = Err cause
        ∨ step = "starting machine: " ∧
          ∃ bin args,
            launch (events (Start env m opts)) = Some (bin, args) ∧
            cmd_Start env bin args = Some cause)) ∧
  (∀ c e, conn m = None →
     returned (Conn env now m).1 = Ret (c, Some e) →
     c = None ∧ e = errors_New "failed to open connection" ∧
     Error e = "failed to open connection" ∧ Unwrap e = None).
Proof.
  split.
  - intros e. unfold Start.
    destruct (exec_LookPath env _) as [bin|e0] eqn:Hbin.
    2:{ intros [= <-]. exists "finding qemu binary: ", e0. naive_solver. }
    destruct (xdg_RuntimeFile env ("fog/" +:+ ID m +:+ ".sock"))
      as [a|e1] eqn:Ha.
    2:{ intros [= <-]. exists "generating socket file path: ", e1.
        naive_solver. }
    cbn [ID set_addr set_monAddr Conf Name ImgPath].
    destruct (xdg_RuntimeFile env ("fog/" +:+ ID m +:+ "_tty.sock"))
      as [t|e2] eqn:Ht.
    2:{ intros [= <-]. exists "generating ttysocket file path: ", e2.
        naive_solver. }
    destruct (xdg_RuntimeFile env ("fog/" +:+ ID m +:+ "_monitor.sock"))
      as [mo|e3] eqn:Hmo.
    2:{ intros [= <-]. exists "generating monitor socket file path: ", e3.
        naive_solver. }
    destruct opts as [o|]; [|discriminate].
    destruct (Conf m) as [conf|] eqn:Hconf; [|discriminate].
    destruct (cmd_Start env bin _) as [e4|] eqn:Hst; [|discriminate].
    intros [= <-]. exists "starting machine: ", e4.
    repeat split. do 4 right. split; [done|]. eauto.
  - intros c e Hc. unfold Conn, openConn. rewrite Hc. cbn [openConn_loop].
    destruct (net_Dial env now "unix" (addr m)); [discriminate|].
    destruct (net_Dial env (now + time_Second) "unix" (addr m));
      [discriminate|].
    destruct (net_Dial env (now + time_Second + time_Second) "unix" (addr m));
      [discriminate|].
    cbn. intros [= <- <-]. done.
Qed.

Lemma errors_name_the_step_witness :
  Unwrap (fmt_Errorf "finding qemu binary: "
            (errorString "executable file not found in $PATH")) =
    Some (errorString "executable file not found in $PATH") ∧
  Unwrap (errors_New "failed to open connection") = None.
Proof.
  destruct (errors_name_the_step env_nobin started_machine sample_opts 0)
    as [HS HC].
  destruct (HS _ (Start_nobin env_nobin started_machine sample_opts _ eq_refl))
    as (step & cause & _ & Hu & _ & [[_ Hcause]|Hrest]).
  - split; [|reflexivity]. injection Hcause as <-. exact Hu.
  - exfalso. destruct Hrest as [[_ H]|[[_ H]|[[_ H]|[_ (b & a & H & _)]]]];
      discriminate H.
Defined.

(** ** Socket paths *)

Lemma chars_app s t :
  list_ascii_of_string (s +:+ t) =
  list_ascii_of_string s ++ list_ascii_of_string t.
Proof.
  induction s as [|a s IH]; [done|].
  rewrite append_cons_l. cbn. by rewrite IH.
Qed.

Lemma chars_length s : length (list_ascii_of_string s) = String.length s.
Proof. induction s; cbn; congruence. Qed.

Lemma chars_inj s t : list_ascii_of_string s = list_ascii_of_string t → s = t.
Proof.
  intros H.
  rewrite <- (string_of_list_ascii_of_string s),
    <- (string_of_list_ascii_of_string t).
  by rewrite H.
Qed.

Lemma all_hex_Forall s :
  all_hex s = true →
  Forall (λ c, is_hex_char c = true) (list_ascii_of_string s).
Proof.
  induction s as [|a s IH]; cbn; [constructor|].
  intros [Ha Hs]%andb_true_iff. constructor; auto.
Qed.

Lemma hexdigit_is_hex (v : byte) :
  is_hex_char (hexdigit (N.shiftr (Byte.to_N v) 4)) = true ∧
  is_hex_char (hexdigit (N.land (Byte.to_N v) 15)) = true.
Proof. destruct v; split; vm_compute; reflexivity. Qed.

Lemma hex_EncodeToString_all_hex src :
  all_hex (hex_EncodeToString src) = true.
Proof.
  induction src as [|v src IH]; [done|].
  cbn [hex_EncodeToString all_hex].
  destruct (hexdigit_is_hex v) as [-> ->]. done.
Qed.

Lemma hex_EncodeToString_length src :
  String.length (hex_EncodeToString src) = (2 * length src)%nat.
Proof. induction src as [|v src IH]; cbn in *; lia. Qed.

(** A generated identity is 64 hexadecimal digits. *)
Lemma generateMachineID_shape r id :
  generateMachineID r = Ret id →
  String.length id = 64%nat ∧ all_hex id = true.
Proof.
  unfold generateMachineID.
  case_decide as Hlen; [|case_decide; discriminate].
  intros [= <-]. split; [|apply hex_EncodeToString_all_hex].
  rewrite hex_EncodeToString_length, length_take. lia.
Qed.

(** The last character of a non-empty string of hexadecimal digits. *)
Lemma rev_chars_hex id :
  all_hex id = true → String.length id ≠ 0%nat →
  ∃ c l, reverse (list_ascii_of_string id) = c :: l ∧ is_hex_char c = true.
Proof.
  intros Hh Hl. apply all_hex_Forall, Forall_reverse in Hh.
  destruct (reverse (list_ascii_of_string id)) as [|c l] eqn:Hr.
  - apply (f_equal length) in Hr. rewrite length_reverse, chars_length in Hr.
    done.
  - exists c, l. split; [done|]. by inversion Hh.
Qed.

(** Two socket paths, each an identity of 64 hexadecimal digits under a
    directory and before a suffix, are equal only if their identities
    and their suffixes are. *)
Lemma socket_path_inj b1 b2 id1 id2 suf1 suf2 :
  suf1 ∈ socket_suffixes → suf2 ∈ socket_suffixes →
  String.length id1 = 64%nat → all_hex id1 = true →
  String.length id2 = 64%nat → all_hex id2 = true →
  b1 +:+ "/" +:+ "fog/" +:+ id1 +:+ suf1 =
  b2 +:+ "/" +:+ "fog/" +:+ id2 +:+ suf2 →
  id1 = id2 ∧ suf1 = suf2.
Proof.
  intros Hs1 Hs2 Hl1 Hh1 Hl2 Hh2 Heq.
  apply (f_equal list_ascii_of_string) in Heq.
  rewrite !chars_app in Heq. apply (f_equal reverse) in Heq.
  rewrite !reverse_app in Heq.
  destruct (rev_chars_hex id1 Hh1) as (x1 & l1 & Hr1 & Hx1); [lia|].
  destruct (rev_chars_hex id2 Hh2) as (x2 & l2 & Hr2 & Hx2); [lia|].
  assert (length (reverse (list_ascii_of_string id1)) =
          length (reverse (list_ascii_of_string id2))) as Hlen
    by (rewrite !length_reverse, !chars_length; lia).
  unfold socket_suffixes in Hs1, Hs2.
  repeat (apply elem_of_cons in Hs1 as [->|Hs1]);
    [| | |by apply elem_of_nil in Hs1];
    (repeat (apply elem_of_cons in Hs2 as [->|Hs2]);
     [| | |by apply elem_of_nil in Hs2]);
    cbn in Heq;
    rewrite <- ?app_assoc in Heq; cbn [app] in Heq;
    try (injection Heq as Heq;
         apply app_inj_1 in Heq as [Heq _]; [|done];
         apply (f_equal reverse) in Heq; rewrite !reverse_involutive in Heq;
         apply chars_inj in Heq; done);
    exfalso; rewrite ?Hr1, ?Hr2 in Heq; cbn [app] in Heq;
    injection Heq as Heq; intros; subst; vm_compute in Hx1, Hx2; done.
Qed.

Lemma NewMachine_ID r n c i ip m :
  NewMachine r n c i ip = Ret m →
  String.length (ID m) = 64%nat ∧ all_hex (ID m) = true.
Proof.
  unfold NewMachine.
  destruct (generateMachineID r) as [id|] eqn:Hid; [|discriminate].
  intros [= <-]. cbn. by apply generateMachineID_shape in Hid.
Qed.

(** The socket paths of one started machine and of another. *)
Lemma socket_paths_apart env1 env2 m1 m2 suf1 suf2 p1 p2 :
  xdg_joins env1 → xdg_joins env2 →
  String.length (ID m1) = 64%nat → all_hex (ID m1) = true →
  String.length (ID m2) = 64%nat → all_hex (ID m2) = true →
  suf1 ∈ socket_suffixes → suf2 ∈ socket_suffixes →
  xdg_RuntimeFile env1 ("fog/" +:+ ID m1 +:+ suf1) = Ok p1 →
  xdg_RuntimeFile env2 ("fog/" +:+ ID m2 +:+ suf2) = Ok p2 →
  p1 = p2 → ID m1 = ID m2 ∧ suf1 = suf2.
Proof.
  intros Hx1 Hx2 Hl1 Hh1 Hl2 Hh2 Hs1 Hs2 H1 H2 Heq.
  destruct (Hx1 _ _ H1) as [b1 ->]. destruct (Hx2 _ _ H2) as [b2 Hb2].
  rewrite Hb2 in Heq. by eapply socket_path_inj.
Qed.

(** C8: for machines made by [NewMachine], whose identity comes from
    [generateMachineID], and a runtime directory library that returns
    the relative path it is given under a base directory: the three
    socket paths [Start] derives and hands to the process (the primary
    one, kept in [addr], the tty one, and the monitor one, kept in
    [monAddr]) are pairwise distinct, and when the identities of two
    machines differ, no path of one is a path of the other. *)
Theorem socket_paths_distinct env1 env2 r1 r2 n1 n2 c1 c2 i1 i2 ip1 ip2
    m1 m2 o1 o2 bin1 bin2 args1 args2 :
  xdg_joins env1 → xdg_joins env2 →
  NewMachine r1 n1 c1 i1 ip1 = Ret m1 →
  NewMachine r2 n2 c2 i2 ip2 = Ret m2 →
  launch (events (Start env1 m1 o1)) = Some (bin1, args1) →
  launch (events (Start env2 m2 o2)) = Some (bin2, args2) →
  ∃ tty1 tty2,
    let P1 := [addr (machine (Start env1 m1 o1)); tty1;
               monAddr (machine (Start env1 m1 o1))] in
    let P2 := [addr (machine (Start env2 m2 o2)); tty2;
               monAddr (machine (Start env2 m2 o2))] in
    args1 !! 17%nat = Some ("socket,id=serial,path=" +:+
                            addr (machine (Start env1 m1 o1)) +:+ ",server,nowait") ∧
    args1 !! 21%nat = Some ("socket,id=tty,path=" +:+ tty1 +:+ ",server,nowait") ∧
    args1 !! 25%nat = Some ("socket,id=monitor,path=" +:+
                            monAddr (machine (Start env1 m1 o1)) +:+ ",server,nowait") ∧
    args2 !! 17%nat = Some ("socket,id=serial,path=" +:+
                            addr (machine (Start env2 m2 o2)) +:+ ",server,nowait") ∧
    args2 !! 21%nat = Some ("socket,id=tty,path=" +:+ tty2 +:+ ",server,nowait") ∧
    args2 !! 25%nat = Some ("socket,id=monitor,path=" +:+
                            monAddr (machine (Start env2 m2 o2)) +:+ ",server,nowait") ∧
    NoDup P1 ∧ NoDup P2 ∧
    (ID m1 ≠ ID m2 → ∀ p, p ∈ P1 → p ∉ P2).
Proof.
  intros Hx1 Hx2 [Hl1 Hh1]%NewMachine_ID [Hl2 Hh2]%NewMachine_ID L1 L2.
  destruct (Start_launch_inv _ _ _ _ _ L1)
    as (a1 & t1 & mo1 & ? & ? & _ & Ha1 & Ht1 & Hmo1 & _ & _ & -> & -> & ->).
  destruct (Start_launch_inv _ _ _ _ _ L2)
    as (a2 & t2 & mo2 & ? & ? & _ & Ha2 & Ht2 & Hmo2 & _ & _ & -> & -> & ->).
  exists t1, t2. cbn zeta. repeat (split; [reflexivity|]).
  assert (∀ env m sa sb pa pb,
            xdg_joins env → String.length (ID m) = 64%nat →
            all_hex (ID m) = true →
            sa ∈ socket_suffixes → sb ∈ socket_suffixes → sa ≠ sb →
            xdg_RuntimeFile env ("fog/" +:+ ID m +:+ sa) = Ok pa →
            xdg_RuntimeFile env ("fog/" +:+ ID m +:+ sb) = Ok pb →
            pa ≠ pb) as Hown.
  { intros env m sa sb pa pb Hx Hl Hh Hsa Hsb Hne Hpa Hpb Heq.
    by destruct (socket_paths_apart env env m m sa sb pa pb). }
  assert (∀ env m a t mo,
            xdg_joins env → String.length (ID m) = 64%nat →
            all_hex (ID m) = true →
            xdg_RuntimeFile env ("fog/" +:+ ID m +:+ ".sock") = Ok a →
            xdg_RuntimeFile env ("fog/" +:+ ID m +:+ "_tty.sock") = Ok t →
            xdg_RuntimeFile env ("fog/" +:+ ID m +:+ "_monitor.sock") = Ok mo →
            NoDup [a; t; mo]) as Hnodup.
  { intros env m a t mo Hx Hl Hh Ha Ht Hmo.
    assert (a ≠ t) by
      (eapply (Hown env m ".sock" "_tty.sock"); eauto;
       unfold socket_suffixes; rewrite !elem_of_cons; auto).
    assert (a ≠ mo) by
      (eapply (Hown env m ".sock" "_monitor.sock"); eauto;
       unfold socket_suffixes; rewrite !elem_of_cons; auto).
    assert (t ≠ mo) by
      (eapply (Hown env m "_tty.sock" "_monitor.sock"); eauto;
       unfold socket_suffixes; rewrite !elem_of_cons; auto).
    repeat (apply NoDup_cons_2;
            [rewrite ?elem_of_cons, elem_of_nil; intuition congruence|]).
    apply NoDup_nil_2. }
  split; [by apply (Hnodup env1 m1)|]. split; [by apply (Hnodup env2 m2)|].
  intros Hne p Hp1 Hp2.
  assert (∀ sa sb pa pb,
            sa ∈ socket_suffixes → sb ∈ socket_suffixes →
            xdg_RuntimeFile env1 ("fog/" +:+ ID m1 +:+ sa) = Ok pa →
            xdg_RuntimeFile env2 ("fog/" +:+ ID m2 +:+ sb) = Ok pb →
            pa ≠ pb) as Hcross.
  { intros sa sb pa pb Hsa Hsb Hpa Hpb Heq.
    by destruct (socket_paths_apart env1 env2 m1 m2 sa sb pa pb). }
  assert (∀ p env m a t mo,
            xdg_RuntimeFile env ("fog/" +:+ ID m +:+ ".sock") = Ok a →
            xdg_RuntimeFile env ("fog/" +:+ ID m +:+ "_tty.sock") = Ok t →
            xdg_RuntimeFile env ("fog/" +:+ ID m +:+ "_monitor.sock") = Ok mo →
            p ∈ [a; t; mo] →
            ∃ s, s ∈ socket_suffixes ∧
                 xdg_RuntimeFile env ("fog/" +:+ ID m +:+ s) = Ok p) as Hsuf.
  { intros q env m a t mo Ha Ht Hmo Hq. unfold socket_suffixes.
    repeat (apply elem_of_cons in Hq as [->|Hq]);
      [exists ".sock"|exists "_tty.sock"|exists "_monitor.sock"|];
      [split; [rewrite !elem_of_cons; auto|done]..
      |by apply elem_of_nil in Hq]. }
  destruct (Hsuf p env1 m1 _ _ _ Ha1 Ht1 Hmo1 Hp1) as (sa & Hsa & Hpa).
  destruct (Hsuf p env2 m2 _ _ _ Ha2 Ht2 Hmo2 Hp2) as (sb & Hsb & Hpb).
  by apply (Hcross sa sb p p).
Qed.

Lemma env_up_joins up : xdg_joins (env_up up).
Proof. intros rel p [= <-]. by exists "/run/user/1000". Qed.

Lemma socket_paths_distinct_witness :
  addr (machine (Start (env_up 0) machine_a sample_opts)) ≠
  monAddr (machine (Start (env_up 0) machine_b sample_opts)).
Proof.
  destruct (socket_paths_distinct (env_up 0) (env_up 0) entropy_a entropy_b
              "vm" "vm" (Some {| Memory := "1G"; Ports := [] |})
              (Some {| Memory := "1G"; Ports := [] |}) None None "/img" "/img"
              machine_a machine_b sample_opts sample_opts
              "/usr/bin/qemu-system-x86_64" "/usr/bin/qemu-system-x86_64"
              (args_of (Start (env_up 0) machine_a sample_opts))
              (args_of (Start (env_up 0) machine_b sample_opts))
              (env_up_joins 0) (env_up_joins 0)
              eq_refl eq_refl eq_refl eq_refl)
    as (tty1 & tty2 & _ & _ & _ & _ & _ & _ & _ & _ & Hcross).
  intros Heq. apply (Hcross ltac:(vm_compute; discriminate) _ (list_elem_of_here _ _)).
  rewrite Heq. do 2 apply list_elem_of_further. apply list_elem_of_here.
Defined.

(** The identities have to be generated ones: of two machines built by
    hand with the identities [x] and [x_tty], the first has for its tty
    socket the path the second has for its primary socket. *)
Remark handmade_identities_share_a_path :
  args_of (Start (env_up 0) (handmade_machine "x") sample_opts) !! 21%nat =
  Some ("socket,id=tty,path=" +:+
        addr (machine (Start (env_up 0) (handmade_machine "x_tty") sample_opts))
        +:+ ",server,nowait").
Proof. vm_compute. reflexivity. Qed.

(** * Properties of the log multiplexer *)

(** ** The closure and its callback, run to their end *)

Lemma flush_callback_run s W st :
  heap W !! s = Some st →
  exec_all s flush_callback W =
  set_heap (<[s := set_t None (set_b [] st)]> (heap W))
    (set_sink (sink W ++ [(s, w_b st)]) W).
Proof.
  intros Hs. unfold exec_all, flush_callback. cbn [foldl].
  unfold exec at 3. rewrite Hs.
  unfold exec at 2. cbn [heap set_sink]. rewrite Hs.
  unfold exec. cbn [heap set_heap]. rewrite lookup_insert_eq.
  unfold set_heap, set_sink. cbn. by rewrite insert_insert_eq.
Qed.

Lemma flush_callback_absent s W :
  heap W !! s = None → exec_all s flush_callback W = W.
Proof.
  intros Hs. unfold exec_all, flush_callback, exec. cbn. by rewrite !Hs.
Qed.

Lemma write_closure_run s p W st :
  heap W !! s = Some st →
  exec_all s (write_closure p) W =
  match w_t st with
  | Some _ => set_heap (<[s := set_b (w_b st ++ p) st]> (heap W)) W
  | None =>
      let d := now W + bufMs (mux W) in
      set_timers (timers W ++ [(d, s)])
        (set_heap (<[s := set_t (Some d) (set_b (w_b st ++ p) st)]> (heap W)) W)
  end.
Proof.
  intros Hs. unfold exec_all, write_closure. cbn [foldl].
  unfold exec at 2. rewrite Hs.
  unfold exec. cbn [heap set_heap]. rewrite lookup_insert_eq.
  cbn [w_t set_b]. destruct (w_t st); [done|].
  unfold set_timers, set_heap. cbn. by rewrite insert_insert_eq.
Qed.

(** ** Registration *)

Lemma Stream_fresh rt n W :
  streams (mux W) !! n = None →
  let s := fresh (dom (heap W)) in
  heap W !! s = None ∧
  Stream rt n W =
    (Ret s,
     set_mux {| streams := <[n := s]> (streams (mux W));
                bufMs := bufMs (mux W); isDirty := true |}
       (set_heap (<[s := {| name := n; clr := rand_color rt (draws W);
                            w_b := []; w_t := None |}]> (heap W))
          (set_draws (S (draws W)) W))).
Proof.
  intros Hn. split.
  - apply not_elem_of_dom, is_fresh.
  - unfold Stream, FastHappyColor. cbn. by rewrite Hn.
Qed.

Lemma Stream_taken rt n W s :
  streams (mux W) !! n = Some s →
  Stream rt n W =
    (Panic ("Stream " +:+ n +:+ " already exists"), set_draws (S (draws W)) W).
Proof. intros Hn. unfold Stream, FastHappyColor. cbn. by rewrite Hn. Qed.

(** C3: a call of [Stream] with a name that is registered panics and
    registers nothing; a call with a name that is not registered returns
    a new handle, registered under the name, and from then on a call
    with the same name panics. *)
Theorem Stream_duplicate_panics rt n W :
  (is_Some (streams (mux W) !! n) →
     ∃ W', Stream rt n W = (Panic ("Stream " +:+ n +:+ " already exists"), W') ∧
           mux W' = mux W ∧ heap W' = heap W) ∧
  (streams (mux W) !! n = None →
     ∃ s W', Stream rt n W = (Ret s, W') ∧
             heap W !! s = None ∧
             streams (mux W') !! n = Some s ∧
             heap W' !! s =
               Some {| name := n; clr := rand_color rt (draws W);
                       w_b := []; w_t := None |} ∧
             ∀ rt', ∃ v W'', Stream rt' n W' = (Panic v, W'')).
Proof.
  split.
  - intros [s Hs]. rewrite (Stream_taken _ _ _ _ Hs). eauto.
  - intros Hn. destruct (Stream_fresh rt n W Hn) as [Hfresh ->].
    do 2 eexists. split; [reflexivity|]. split; [done|].
    split; [cbn; apply lookup_insert_eq|].
    split; [cbn; apply lookup_insert_eq|].
    intros rt'.
    erewrite (Stream_taken rt' n _ (fresh (dom (heap W)))); [eauto|].
    cbn. apply lookup_insert_eq.
Qed.

Lemma Stream_duplicate_panics_witness :
  (∃ W', Stream sample_rt "web" sample_world =
           (Panic "Stream web already exists", W') ∧
         mux W' = mux sample_world ∧ heap W' = heap sample_world) ∧
  (∃ s W', Stream sample_rt "cache" sample_world = (Ret s, W') ∧
           streams (mux W') !! "cache" = Some s).
Proof.
  destruct (Stream_duplicate_panics sample_rt "web" sample_world) as [Hdup _].
  destruct (Stream_duplicate_panics sample_rt "cache" sample_world) as [_ Hnew].
  split.
  - apply Hdup. exists 0%nat. vm_compute. reflexivity.
  - destruct Hnew as (s & W' & HS & _ & Hreg & _); [vm_compute; reflexivity|].
    eauto.
Defined.

(** ** Timers *)

Lemma flushes_app s W k :
  flushes s (set_sink (sink W ++ k) W) =
  flushes s W ++ (filter (λ c, c.1 = s) k).*2.
Proof. unfold flushes. cbn. by rewrite filter_app, fmap_app. Qed.

Lemma flush_callback_other s s' W :
  s ≠ s' →
  heap (exec_all s' flush_callback W) !! s = heap W !! s ∧
  flushes s (exec_all s' flush_callback W) = flushes s W.
Proof.
  intros Hne. destruct (heap W !! s') as [st|] eqn:Hs'.
  - rewrite (flush_callback_run _ _ _ Hs'). cbn [heap set_heap]. split.
    + by rewrite lookup_insert_ne.
    + unfold flushes. cbn. rewrite filter_app.
      rewrite filter_cons_False; [|cbn; congruence].
      by rewrite filter_nil, app_nil_r.
  - by rewrite (flush_callback_absent _ _ Hs').
Qed.

Lemma flush_callback_fields s W :
  mux (exec_all s flush_callback W) = mux W ∧
  now (exec_all s flush_callback W) = now W ∧
  timers (exec_all s flush_callback W) = timers W ∧
  draws (exec_all s flush_callback W) = draws W.
Proof.
  destruct (heap W !! s) as [st|] eqn:Hs.
  - by rewrite (flush_callback_run _ _ _ Hs).
  - by rewrite (flush_callback_absent _ _ Hs).
Qed.

(** The timers left are those not yet due. *)
Lemma fire_due_rest τ q W :
  (fire_due τ q W).1 = filter (λ e, τ < e.1) q.
Proof.
  revert W. induction q as [|[d s] q IH]; intros W; [done|].
  cbn [fire_due]. case_decide as Hd.
  - rewrite IH. rewrite filter_cons_False; [done|cbn; lia].
  - specialize (IH W). destruct (fire_due τ q W) as [r W'].
    cbn [fst] in *. rewrite filter_cons_True; [by rewrite IH|cbn; lia].
Qed.

Lemma fire_due_fields τ q W :
  mux (fire_due τ q W).2 = mux W ∧ now (fire_due τ q W).2 = now W ∧
  timers (fire_due τ q W).2 = timers W ∧ draws (fire_due τ q W).2 = draws W.
Proof.
  revert W. induction q as [|[d s] q IH]; intros W; [done|].
  cbn [fire_due]. case_decide as Hd.
  - destruct (IH (exec_all s flush_callback W)) as (-> & -> & -> & ->).
    apply flush_callback_fields.
  - specialize (IH W). by destruct (fire_due τ q W) as [r W'].
Qed.

(** A stream none of whose timers is due keeps its buffer, and the sink
    receives nothing from it. *)
Lemma fire_due_frame τ q W s :
  (∀ d, (d, s) ∈ q → τ < d) →
  heap (fire_due τ q W).2 !! s = heap W !! s ∧
  flushes s (fire_due τ q W).2 = flushes s W.
Proof.
  revert W. induction q as [|[d s'] q IH]; intros W Hq; [done|].
  cbn [fire_due]. case_decide as Hd.
  - assert (s ≠ s') as Hne.
    { intros ->. specialize (Hq d (list_elem_of_here _ _)). lia. }
    destruct (IH (exec_all s' flush_callback W)) as [-> ->].
    { intros d' Hin. apply Hq. by apply list_elem_of_further. }
    by apply flush_callback_other.
  - specialize (IH W). destruct (fire_due τ q W) as [r W'].
    apply IH. intros d' Hin. apply Hq. by apply list_elem_of_further.
Qed.

(** The one timer of a stream, when it is due, hands the buffer to the
    sink once, empties it and clears [t]. *)
Lemma fire_due_hit τ q W s D st :
  NoDup q.*2 → (D, s) ∈ q → D ≤ τ → heap W !! s = Some st →
  heap (fire_due τ q W).2 !! s = Some (set_t None (set_b [] st)) ∧
  flushes s (fire_due τ q W).2 = flushes s W ++ [w_b st].
Proof.
  revert W. induction q as [|[d s'] q IH]; intros W Hnd Hin HD Hs.
  { by apply elem_of_nil in Hin. }
  cbn in Hnd. apply NoDup_cons in Hnd as [Hs' Hnd].
  apply elem_of_cons in Hin as [[= <- <-]|Hin].
  - cbn [fire_due]. rewrite decide_True by done.
    destruct (fire_due_frame τ q (exec_all s flush_callback W) s) as [-> ->].
    { intros d' Hd'. exfalso. apply Hs'.
      apply list_elem_of_fmap. by exists (d', s). }
    rewrite (flush_callback_run _ _ _ Hs). cbn [heap set_heap]. split.
    + apply lookup_insert_eq.
    + unfold flushes. cbn.
      rewrite filter_app. rewrite filter_cons_True; [|done].
      by rewrite filter_nil, fmap_app.
  - assert (s ≠ s') as Hne.
    { intros ->. apply Hs'. apply list_elem_of_fmap. by exists (D, s'). }
    cbn [fire_due]. case_decide as Hd.
    + destruct (flush_callback_other s s' W Hne) as [Hh Hf].
      destruct (IH (exec_all s' flush_callback W) Hnd Hin HD) as [-> ->].
      { by rewrite Hh. }
      by rewrite Hf.
    + specialize (IH W Hnd Hin HD Hs). by destruct (fire_due τ q W) as [r W'].
Qed.

(** A callback changes neither the name nor the colour of a stream, and
    allocates nothing. *)
Lemma flush_callback_cell s s' W :
  match heap W !! s with
  | None => heap (exec_all s' flush_callback W) !! s = None
  | Some st =>
      ∃ st', heap (exec_all s' flush_callback W) !! s = Some st' ∧
             name st' = name st ∧ clr st' = clr st
  end.
Proof.
  destruct (decide (s = s')) as [->|Hne].
  - destruct (heap W !! s') as [st|] eqn:Hs.
    + rewrite (flush_callback_run _ _ _ Hs). cbn [heap set_heap].
      rewrite lookup_insert_eq. eauto.
    + by rewrite (flush_callback_absent _ _ Hs).
  - destruct (flush_callback_other s s' W Hne) as [-> _].
    destruct (heap W !! s); eauto.
Qed.

Lemma fire_due_cell τ q W s :
  match heap W !! s with
  | None => heap (fire_due τ q W).2 !! s = None
  | Some st =>
      ∃ st', heap (fire_due τ q W).2 !! s = Some st' ∧
             name st' = name st ∧ clr st' = clr st
  end.
Proof.
  revert W. induction q as [|[d s'] q IH]; intros W.
  { cbn. destruct (heap W !! s); eauto. }
  cbn [fire_due]. case_decide as Hd.
  - specialize (IH (exec_all s' flush_callback W)).
    pose proof (flush_callback_cell s s' W) as Hc.
    destruct (heap W !! s) as [st|].
    + destruct Hc as (st1 & Hst1 & Hn1 & Hc1). rewrite Hst1 in IH.
      destruct IH as (st' & ? & ? & ?). exists st'. split; [done|].
      split; congruence.
    + by rewrite Hc in IH.
  - specialize (IH W). by destruct (fire_due τ q W) as [r W'].
Qed.

Lemma advance_unfold τ W :
  advance τ W =
  set_now (Z.max (now W) τ)
    (set_timers (fire_due τ (timers W) W).1 (fire_due τ (timers W) W).2).
Proof. unfold advance. by destruct (fire_due τ (timers W) W). Qed.

Lemma advance_now τ W : now (advance τ W) = Z.max (now W) τ.
Proof. by rewrite advance_unfold. Qed.

Lemma advance_timers τ W :
  timers (advance τ W) = filter (λ e, τ < e.1) (timers W).
Proof. rewrite advance_unfold. cbn. apply fire_due_rest. Qed.

Lemma advance_heap τ W :
  heap (advance τ W) = heap (fire_due τ (timers W) W).2.
Proof. by rewrite advance_unfold. Qed.

Lemma advance_flushes τ W s :
  flushes s (advance τ W) = flushes s (fire_due τ (timers W) W).2.
Proof. by rewrite advance_unfold. Qed.

(** ** Reachable worlds are consistent *)

Lemma NewLogMux_consistent t0 : consistent (NewLogMux t0).
Proof.
  split; cbn; [intros ?? H; by rewrite lookup_empty in H
              |intros ?? H; by apply elem_of_nil in H
              |apply NoDup_nil_2|done].
Qed.

Lemma Stream_consistent rt n W :
  consistent W → consistent (Stream rt n W).2.
Proof.
  intros [Ha Ht Hn Hw].
  destruct (streams (mux W) !! n) as [s|] eqn:Hs.
  - rewrite (Stream_taken _ _ _ _ Hs). by split.
  - destruct (Stream_fresh rt n W Hs) as [Hf ->]. split; cbn.
    + intros n' s'. destruct (decide (n = n')) as [<-|Hne].
      * rewrite lookup_insert_eq. intros [= <-].
        rewrite lookup_insert_eq. eauto.
      * rewrite lookup_insert_ne by done. intros Hs'.
        destruct (Ha _ _ Hs') as (st & Hst & Hname).
        rewrite lookup_insert_ne by congruence. eauto.
    + intros d s' Hin. destruct (Ht _ _ Hin) as (st & Hst & Hd).
      rewrite lookup_insert_ne by congruence. eauto.
    + done.
    + done.
Qed.

(** The cell of [s'] after a store at [s]: the stored one when the two
    are the same stream, the old one otherwise. *)
Ltac stored_cell s s' :=
  destruct (decide (s = s')) as [<-|?];
  [rewrite lookup_insert_eq; eexists; split; [done|]; cbn; congruence
  |rewrite lookup_insert_ne by done; eauto].

Lemma Write_consistent s p W :
  consistent W → consistent (Write s p W).2.
Proof.
  intros [Ha Ht Hn Hw]. unfold Write.
  destruct (heap W !! s) as [st|] eqn:Hs; [|by split].
  cbn [snd]. rewrite (write_closure_run _ _ _ _ Hs).
  destruct (w_t st) as [d0|] eqn:Hwt.
  - split; cbn; [| |done..].
    + intros n' s' Hs'. destruct (Ha _ _ Hs') as (st' & Hst' & Hname).
      stored_cell s s'.
    + intros d s' Hin. destruct (Ht _ _ Hin) as (st' & Hst' & Hd).
      stored_cell s s'.
  - assert (s ∉ (timers W).*2) as Hfree.
    { intros ([d s'] & -> & Hin)%list_elem_of_fmap.
      destruct (Ht _ _ Hin) as (st' & Hst' & Hd). cbn in *. congruence. }
    split; cbn; [| | |done].
    + intros n' s' Hs'. destruct (Ha _ _ Hs') as (st' & Hst' & Hname).
      stored_cell s s'.
    + intros d s' [Hin|[= -> ->]%list_elem_of_singleton]%elem_of_app.
      * destruct (Ht _ _ Hin) as (st' & Hst' & Hd).
        destruct (decide (s = s')) as [<-|Hne]; [congruence|].
        rewrite lookup_insert_ne by done. eauto.
      * rewrite lookup_insert_eq. eauto.
    + rewrite fmap_app. apply NoDup_app. split; [done|]. split.
      * intros x Hx [= ->]%list_elem_of_singleton. done.
      * apply NoDup_singleton.
Qed.

Lemma advance_consistent τ W :
  consistent W → consistent (advance τ W).
Proof.
  intros [Ha Ht Hn Hw]. unfold advance.
  pose proof (fire_due_rest τ (timers W) W) as Hrest.
  pose proof (fire_due_fields τ (timers W) W) as (Hmux & _ & _ & _).
  destruct (fire_due τ (timers W) W) as [q W'] eqn:Hfd. cbn [fst snd] in *.
  split; cbn.
  - intros n s Hs. rewrite Hmux in Hs.
    destruct (Ha _ _ Hs) as (st & Hst & Hname).
    pose proof (fire_due_cell τ (timers W) W s) as Hc.
    rewrite Hfd, Hst in Hc. cbn [snd] in Hc. destruct Hc as (st' & ? & ? & ?).
    exists st'. split; congruence.
  - intros d s Hin. rewrite Hrest in Hin.
    apply list_elem_of_filter in Hin as [Hlate Hin]. cbn in Hlate.
    destruct (fire_due_frame τ (timers W) W s) as [Hcell _].
    { intros d' Hin'.
      assert (d' = d) as ->; [|done].
      apply list_elem_of_lookup in Hin as [i Hi].
      apply list_elem_of_lookup in Hin' as [j Hj].
      assert (i = j) as ->.
      { eapply NoDup_lookup; [exact Hn| |];
          rewrite list_lookup_fmap; [by rewrite Hi|by rewrite Hj]. }
      congruence. }
    rewrite Hfd in Hcell. cbn in Hcell. rewrite Hcell. by apply Ht.
  - rewrite Hrest. eapply sublist_NoDup; [exact Hn|].
    apply fmap_sublist, sublist_filter.
  - by rewrite Hmux.
Qed.

(** ** Colours *)

Lemma set_clr_clr st : set_clr (clr st) st = st.
Proof. by destruct st. Qed.

Lemma FastHappyPalette_length rt n W :
  length (FastHappyPalette rt n W).1 = n.
Proof. cbn. by rewrite length_fmap, length_seq. Qed.

(** The loop leaves alone the streams it does not visit. *)
Lemma recolor_frame pal vs i h h' v :
  recolor pal i vs h = Ret h' → v ∉ vs → h' !! v = h !! v.
Proof.
  revert i h. induction vs as [|v0 vs IH]; intros i h Hr Hv.
  { by injection Hr as <-. }
  cbn in Hr. destruct (pal !! i) as [c|]; [|done].
  destruct (h !! v0) as [st0|] eqn:H0; [|done].
  apply not_elem_of_cons in Hv as [Hne Hv].
  rewrite (IH _ _ Hr Hv). by rewrite lookup_insert_ne.
Qed.

(** With a palette long enough and every stream allocated, the loop
    runs to its end; it changes colours only, and the colour of a
    stream it visits is one of the palette. *)
Lemma recolor_ok pal vs i h :
  (i + length vs ≤ length pal)%nat →
  (∀ v, v ∈ vs → is_Some (h !! v)) →
  ∃ h', recolor pal i vs h = Ret h' ∧
        (∀ v, h !! v = None → h' !! v = None) ∧
        (∀ v st, h !! v = Some st →
           ∃ c, h' !! v = Some (set_clr c st) ∧ (v ∈ vs → c ∈ pal)).
Proof.
  revert i h. induction vs as [|v0 vs IH]; intros i h Hlen Hall.
  { exists h. split; [done|]. split; [done|]. intros v st Hv.
    exists (clr st). rewrite set_clr_clr. split; [done|].
    intros []%elem_of_nil. }
  cbn [recolor]. cbn in Hlen.
  destruct (lookup_lt_is_Some_2 pal i) as [c Hc]; [lia|]. rewrite Hc.
  destruct (Hall v0) as [st0 H0]; [apply list_elem_of_here|]. rewrite H0.
  destruct (IH (S i) (<[v0 := set_clr c st0]> h)) as (h' & Hr & Hnone & Hsome).
  { lia. }
  { intros v Hv. destruct (decide (v0 = v)) as [<-|Hne].
    - rewrite lookup_insert_eq. eauto.
    - rewrite lookup_insert_ne by done. apply Hall.
      by apply list_elem_of_further. }
  exists h'. split; [done|]. split.
  - intros v Hv. apply Hnone. rewrite lookup_insert_ne; [done|congruence].
  - intros v st Hv. destruct (decide (v0 = v)) as [<-|Hne].
    + assert (st = st0) as -> by congruence.
      destruct (decide (v0 ∈ vs)) as [Hin|Hnin].
      * destruct (Hsome v0 (set_clr c st0)) as (c' & Hc' & Hpal).
        { apply lookup_insert_eq. }
        exists c'. split; [by rewrite Hc'|]. intros _. by apply Hpal.
      * exists c. split.
        -- rewrite (recolor_frame _ _ _ _ _ _ Hr Hnin).
           apply lookup_insert_eq.
        -- intros _. by eapply list_elem_of_lookup_2.
    + destruct (Hsome v st) as (c' & Hc' & Hpal).
      { by rewrite lookup_insert_ne. }
      exists c'. split; [done|]. intros [?|?]%elem_of_cons; [congruence|auto].
Qed.

(** When no stream is visited twice, the [j]-th stream visited gets the
    [j]-th colour. *)
Lemma recolor_nth pal vs i h h' j v st :
  recolor pal i vs h = Ret h' → NoDup vs →
  vs !! j = Some v → h !! v = Some st →
  ∃ c, pal !! (i + j)%nat = Some c ∧ h' !! v = Some (set_clr c st).
Proof.
  revert i h j. induction vs as [|v0 vs IH]; intros i h j Hr Hnd Hj Hv.
  { done. }
  cbn in Hr. destruct (pal !! i) as [c|] eqn:Hc; [|done].
  destruct (h !! v0) as [st0|] eqn:H0; [|done].
  apply NoDup_cons in Hnd as [Hnin Hnd].
  destruct j as [|j]; cbn in Hj.
  - injection Hj as ->. assert (st0 = st) as -> by congruence.
    exists c. rewrite Nat.add_0_r. split; [done|].
    rewrite (recolor_frame _ _ _ _ _ _ Hr Hnin). apply lookup_insert_eq.
  - assert (v0 ≠ v) as Hne.
    { intros ->. apply Hnin. by eapply list_elem_of_lookup_2. }
    destruct (IH (S i) _ j Hr Hnd Hj) as (c' & Hc' & Hh').
    { by rewrite lookup_insert_ne. }
    exists c'. split; [|done]. by rewrite Nat.add_succ_r.
Qed.

Lemma Write_cell s' p W s :
  match heap W !! s with
  | None => heap (Write s' p W).2 !! s = None
  | Some st =>
      ∃ st', heap (Write s' p W).2 !! s = Some st' ∧
             name st' = name st ∧ clr st' = clr st
  end.
Proof.
  unfold Write. destruct (heap W !! s') as [st0|] eqn:Hs'; cbn [snd].
  2:{ destruct (heap W !! s); eauto. }
  rewrite (write_closure_run _ _ _ _ Hs').
  destruct (decide (s' = s)) as [->|Hne].
  - rewrite Hs'. destruct (w_t st0); cbn; rewrite lookup_insert_eq; eauto.
  - destruct (w_t st0); cbn; rewrite lookup_insert_ne by done;
      destruct (heap W !! s); eauto.
Qed.

Lemma advance_cell τ W s :
  match heap W !! s with
  | None => heap (advance τ W) !! s = None
  | Some st =>
      ∃ st', heap (advance τ W) !! s = Some st' ∧
             name st' = name st ∧ clr st' = clr st
  end.
Proof. rewrite advance_heap. apply fire_due_cell. Qed.

(** Writes and the passing of time change no colour. *)
Lemma run_keeps_colours l W s st :
  heap W !! s = Some st →
  ∃ st', heap (run W l) !! s = Some st' ∧
         name st' = name st ∧ clr st' = clr st.
Proof.
  revert W st. induction l as [|[τ a] l IH]; intros W st Hst; [by eauto|].
  cbn [run foldl]. fold (run (act W (τ, a)) l).
  pose proof (advance_cell τ W s) as Ha. rewrite Hst in Ha.
  destruct Ha as (st1 & Hst1 & Hn1 & Hc1).
  assert (∃ st2, heap (act W (τ, a)) !! s = Some st2 ∧
                 name st2 = name st ∧ clr st2 = clr st)
    as (st2 & Hst2 & Hn2 & Hc2).
  { unfold act. cbn [fst snd]. destruct a as [s' p|]; [|by eauto].
    pose proof (Write_cell s' p (advance τ W) s) as Hw. rewrite Hst1 in Hw.
    destruct Hw as (st2 & ? & ? & ?). exists st2. split; [done|].
    split; congruence. }
  destruct (IH _ _ Hst2) as (st' & ? & ? & ?). exists st'.
  split; [done|]. split; congruence.
Qed.

Lemma refreshColors_clean rt W :
  isDirty (mux W) = false → refreshColors rt W = (Ret (), W).
Proof. intros H. unfold refreshColors. by rewrite H. Qed.

(** Whatever the order of the [range] and whether or not the loop runs
    to its end, [refreshColors] keeps the streams, their names and
    their buffers. *)
Lemma recolor_cells pal vs i h h' v :
  recolor pal i vs h = Ret h' →
  match h !! v with
  | None => h' !! v = None
  | Some st => ∃ c, h' !! v = Some (set_clr c st)
  end.
Proof.
  revert i h. induction vs as [|v0 vs IH]; intros i h Hr.
  { injection Hr as <-. destruct (h !! v) as [st|]; [|done].
    exists (clr st). by rewrite set_clr_clr. }
  cbn in Hr. destruct (pal !! i) as [c|]; [|done].
  destruct (h !! v0) as [st0|] eqn:H0; [|done].
  specialize (IH _ _ Hr). destruct (decide (v0 = v)) as [<-|Hne].
  - rewrite lookup_insert_eq in IH. rewrite H0.
    destruct IH as [c' ->]. by exists c'.
  - by rewrite lookup_insert_ne in IH.
Qed.

Lemma refreshColors_consistent rt W :
  consistent W → consistent (refreshColors rt W).2.
Proof.
  intros [Ha Ht Hn Hw]. unfold refreshColors.
  destruct (isDirty (mux W)); cbn [negb]; [|by split].
  cbn [FastHappyPalette heap set_draws].
  destruct (recolor _ 0 _ (heap W)) as [h|] eqn:Hr; [|by split].
  split; cbn; [| |done..].
  - intros n s Hs. destruct (Ha _ _ Hs) as (st & Hst & Hname).
    pose proof (recolor_cells _ _ _ _ _ s Hr) as Hc. rewrite Hst in Hc.
    destruct Hc as [c ->]. eauto.
  - intros d s Hin. destruct (Ht _ _ Hin) as (st & Hst & Hd).
    pose proof (recolor_cells _ _ _ _ _ s Hr) as Hc. rewrite Hst in Hc.
    destruct Hc as [c ->]. eauto.
Qed.

Create HintDb mux.
#[local] Hint Resolve NewLogMux_consistent Stream_consistent Write_consistent
  refreshColors_consistent advance_consistent : mux.

Lemma reachable_consistent rt W : reachable rt W → consistent W.
Proof. induction 1; auto with mux. Qed.

(** The streams the [range] of [refreshColors] visits: every registered
    one, once. *)
Lemma range_streams rt W :
  consistent W →
  range_order rt (streams (mux W)) ≡ₚ map_to_list (streams (mux W)) →
  let vs := (range_order rt (streams (mux W))).*2 in
  length vs = size (streams (mux W)) ∧ NoDup vs ∧
  (∀ v, v ∈ vs → is_Some (heap W !! v)) ∧
  (∀ n s, streams (mux W) !! n = Some s → s ∈ vs).
Proof.
  intros [Ha _ _ _] Hperm vs. unfold vs. repeat split.
  - by rewrite length_fmap, Hperm, length_map_to_list.
  - rewrite Hperm. apply NoDup_fmap_2_strong; [|apply NoDup_map_to_list].
    intros [n1 s1] [n2 s2] H1%elem_of_map_to_list H2%elem_of_map_to_list.
    cbn. intros <-.
    destruct (Ha _ _ H1) as (st1 & Hst1 & <-).
    destruct (Ha _ _ H2) as (st2 & Hst2 & <-). congruence.
  - intros v ([n s] & -> & Hin)%list_elem_of_fmap. rewrite Hperm in Hin.
    apply elem_of_map_to_list in Hin. cbn [snd].
    destruct (Ha _ _ Hin) as (st & -> & _). eauto.
  - intros n s Hs. apply list_elem_of_fmap. exists (n, s). split; [done|].
    rewrite Hperm. by apply elem_of_map_to_list.
Qed.

Lemma FastHappyPalette_lookup rt n W j :
  (j < n)%nat →
  (FastHappyPalette rt n W).1 !! j =
  Some (palette_color rt n j (draws W + j)%nat).
Proof.
  intros Hj. cbn. rewrite list_lookup_fmap, lookup_seq_lt by done. done.
Qed.

(** C5: [refreshColors] does nothing when the dirty flag is clear.  When
    it is set, with [N] streams registered, it asks for a palette of
    [N] colours (the colour at each place is the one made for that
    place of a palette of [N], of a new draw, and [N] draws are used),
    stores the [j]-th colour of it in the [clr] of the [j]-th stream of
    the [range], so that every registered stream has a colour of that
    palette, changes nothing else of a stream, and clears the flag.  A
    registration sets the flag and the colour of the new stream, and
    leaves every stream that existed as it was; so do writes and the
    passing of time, which change no colour. *)
Theorem refreshColors_palette rt W :
  (isDirty (mux W) = false → refreshColors rt W = (Ret (), W)) ∧
  (isDirty (mux W) = true → consistent W →
   range_order rt (streams (mux W)) ≡ₚ map_to_list (streams (mux W)) →
   let N := size (streams (mux W)) in
   let pal := (FastHappyPalette rt N W).1 in
   ∃ W', refreshColors rt W = (Ret (), W') ∧
         length pal = N ∧
         (∀ j, (j < N)%nat →
            pal !! j = Some (palette_color rt N j (draws W + j)%nat)) ∧
         draws W' = (draws W + N)%nat ∧
         isDirty (mux W') = false ∧
         streams (mux W') = streams (mux W) ∧
         (∀ n s st, streams (mux W) !! n = Some s → heap W !! s = Some st →
            ∃ st', heap W' !! s = Some st' ∧ clr st' ∈ pal ∧
                   name st' = name st ∧ w_b st' = w_b st ∧
                   w_t st' = w_t st) ∧
         (∀ j n s,
            range_order rt (streams (mux W)) !! j = Some (n, s) →
            ∃ st', heap W' !! s = Some st' ∧
                   clr st' = palette_color rt N j (draws W + j)%nat)) ∧
  (∀ n s W', Stream rt n W = (Ret s, W') →
     isDirty (mux W') = true ∧
     heap W !! s = None ∧
     clr <$> heap W' !! s = Some (rand_color rt (draws W)) ∧
     ∀ s' st, heap W !! s' = Some st → heap W' !! s' = Some st) ∧
  (∀ l s st, heap W !! s = Some st →
     ∃ st', heap (run W l) !! s = Some st' ∧ clr st' = clr st).
Proof.
  split; [apply refreshColors_clean|]. split; [|split].
  3:{ intros l s st Hst.
      destruct (run_keeps_colours l W s st Hst) as (st' & ? & _ & ?). eauto. }
  - intros Hdirty Hcons Hperm N pal.
    destruct (range_streams rt W Hcons Hperm) as (Hlen & Hnd & Hall & Hreg).
    destruct (recolor_ok pal (range_order rt (streams (mux W))).*2 0 (heap W))
      as (h' & Hr & Hnone & Hsome).
    { unfold pal. rewrite FastHappyPalette_length, Hlen. cbn. lia. }
    { done. }
    unfold refreshColors. rewrite Hdirty. cbn [negb].
    change (FastHappyPalette rt (size (streams (mux W))) W)
      with (pal, set_draws (draws W + N)%nat W).
    cbn [heap set_draws]. rewrite Hr. eexists. split; [reflexivity|].
    split; [apply FastHappyPalette_length|].
    split; [intros j Hj; by apply FastHappyPalette_lookup|].
    split; [done|]. split; [done|]. split; [done|].
    cbn [heap set_heap set_mux]. split.
    + intros n s st Hs Hst. destruct (Hsome _ _ Hst) as (c & Hc & Hpal).
      exists (set_clr c st). split; [done|]. cbn.
      split; [|done]. apply Hpal. by eapply Hreg.
    + intros j n s Hj.
      assert ((range_order rt (streams (mux W))).*2 !! j = Some s) as Hvs
        by (by rewrite list_lookup_fmap, Hj).
      destruct (Hall s) as [st Hst]; [by eapply list_elem_of_lookup_2|].
      destruct (recolor_nth _ _ _ _ _ j s st Hr Hnd Hvs Hst) as (c & Hc & Hh').
      exists (set_clr c st). split; [done|]. cbn.
      assert (j < N)%nat as HjN.
      { unfold N. rewrite <- Hlen. by eapply lookup_lt_Some. }
      unfold pal in Hc. cbn [Nat.add] in Hc.
      rewrite (FastHappyPalette_lookup rt N W j HjN) in Hc. congruence.
  - intros n s W' HS.
    destruct (streams (mux W) !! n) as [s0|] eqn:Hn.
    { by rewrite (Stream_taken _ _ _ _ Hn) in HS. }
    destruct (Stream_fresh rt n W Hn) as [Hf HS']. rewrite HS' in HS.
    injection HS as <- <-. cbn. split; [done|]. split; [done|].
    split; [by rewrite lookup_insert_eq|].
    intros s' st Hs'. rewrite lookup_insert_ne; [done|congruence].
Qed.

Lemma sample_world_reachable : reachable sample_rt sample_world.
Proof. apply reach_Stream, reach_Stream, reach_new. Qed.

Lemma refreshColors_palette_witness :
  ∃ W' st', refreshColors sample_rt sample_world = (Ret (), W') ∧
            isDirty (mux W') = false ∧
            heap W' !! 0%nat = Some st' ∧
            clr st' = palette_color sample_rt 2 0 2.
Proof.
  destruct (refreshColors_palette sample_rt sample_world) as (_ & Hdirty & _).
  destruct Hdirty as (W' & HW' & _ & _ & _ & Hd & _ & _ & Hpos).
  - reflexivity.
  - apply (reachable_consistent sample_rt), sample_world_reachable.
  - reflexivity.
  - destruct (Hpos 0%nat "web" 0%nat) as (st' & Hst' & Hclr);
      [vm_compute; reflexivity|].
    exists W', st'. repeat split; assumption.
Defined.

(** ** Writes *)

Lemma Write_returns s p W :
  is_Some (heap W !! s) →
  (Write s p W).1 = Ret (Z.of_nat (length p), None).
Proof. intros [st Hs]. unfold Write. by rewrite Hs. Qed.

(** A [Write] that overlaps no callback of its stream: on the handle of
    any registered stream, in any world a program can reach (so
    whatever the buffer holds, whether or not a flush is scheduled,
    whatever the sink has received), it returns [len(p)] and a nil
    error. *)
Theorem Write_reports_full_count rt W n s p :
  reachable rt W → streams (mux W) !! n = Some s →
  (Write s p W).1 = Ret (Z.of_nat (length p), None).
Proof.
  intros Hreach Hs. apply Write_returns.
  destruct (streams_alloc W (reachable_consistent rt W Hreach) n s Hs)
    as (st & -> & _).
  eauto.
Qed.

Lemma Write_reports_full_count_witness :
  (Write 0%nat bytes_a sample_world).1 = Ret (1, None).
Proof.
  apply (Write_reports_full_count sample_rt sample_world "web" 0%nat bytes_a).
  - apply sample_world_reachable.
  - vm_compute. reflexivity.
Defined.

(** ** The coalescing window *)

(** The timers of one stream, in a consistent world. *)
Lemma consistent_timer_unique W s d d' :
  consistent W → (d, s) ∈ timers W → (d', s) ∈ timers W → d' = d.
Proof.
  intros [_ Ht _ _] H1 H2.
  destruct (Ht _ _ H1) as (st & Hst & Hd).
  destruct (Ht _ _ H2) as (st' & Hst' & Hd'). congruence.
Qed.

Lemma idle_advance τ W s :
  consistent W → idle s W →
  idle s (advance τ W) ∧ flushes s (advance τ W) = flushes s W.
Proof.
  intros Hc (st & Hst & Hb & Ht & Hno).
  destruct (fire_due_frame τ (timers W) W s) as [Hcell Hfl].
  { intros d Hin. by apply Hno in Hin. }
  split; [|by rewrite advance_flushes].
  exists st. rewrite advance_heap, Hcell. repeat split; try done.
  intros d Hin. rewrite advance_timers in Hin.
  apply list_elem_of_filter in Hin as [_ Hin]. by apply Hno in Hin.
Qed.

(** The first write of a window starts the timer. *)
Lemma Write_idle s p W :
  consistent W → idle s W →
  filling s p (now W + time_Millisecond * 10) (flushes s W) (Write s p W).2.
Proof.
  intros Hc (st & Hst & Hb & Ht & Hno).
  pose proof (Write_consistent s p W Hc) as Hc'.
  unfold Write in *. rewrite Hst in *. cbn [snd] in *.
  rewrite (write_closure_run _ _ _ _ Hst) in *. rewrite Ht in *.
  rewrite (window W Hc) in *. cbn zeta in *.
  split; [done|]. cbn. split; [unfold time_Millisecond; lia|].
  split; [apply elem_of_app; right; apply list_elem_of_here|].
  split; [done|]. rewrite lookup_insert_eq. eexists. split; [done|].
  cbn. by rewrite Hb.
Qed.

(** A later write of the window is appended to the buffer. *)
Lemma Write_filling s p B D F W :
  filling s B D F W → filling s (B ++ p) D F (Write s p W).2.
Proof.
  intros (Hc & Hnow & Hin & Hfl & st & Hst & Hb & Ht).
  pose proof (Write_consistent s p W Hc) as Hc'.
  unfold Write in *. rewrite Hst in *. cbn [snd] in *.
  rewrite (write_closure_run _ _ _ _ Hst) in *. rewrite Ht in *.
  split; [done|]. cbn. repeat (split; [done|]).
  rewrite lookup_insert_eq. eexists. split; [done|]. cbn. by rewrite Hb.
Qed.

(** A write to another stream leaves the window as it is. *)
Lemma Write_other s s' p B D F W :
  s' ≠ s → filling s B D F W → filling s B D F (Write s' p W).2.
Proof.
  intros Hne (Hc & Hnow & Hin & Hfl & st & Hst & Hb & Ht).
  pose proof (Write_consistent s' p W Hc) as Hc'.
  unfold Write in *.
  destruct (heap W !! s') as [st'|] eqn:Hs'; cbn [snd] in *.
  2:{ split; [done|]. repeat (split; [done|]). eauto. }
  rewrite (write_closure_run _ _ _ _ Hs') in *.
  destruct (w_t st'); cbn zeta in *.
  - split; [done|]. cbn. repeat (split; [done|]).
    rewrite lookup_insert_ne by done. eauto.
  - split; [done|]. cbn. split; [done|].
    split; [apply elem_of_app; by left|]. split; [done|].
    rewrite lookup_insert_ne by done. eauto.
Qed.

(** Time passing inside the window changes nothing of it. *)
Lemma advance_filling τ s B D F W :
  τ < D → filling s B D F W → filling s B D F (advance τ W).
Proof.
  intros Hτ (Hc & Hnow & Hin & Hfl & st & Hst & Hb & Ht).
  destruct (fire_due_frame τ (timers W) W s) as [Hcell Hfl'].
  { intros d Hd. by rewrite (consistent_timer_unique W s D d Hc Hin Hd). }
  split; [by apply advance_consistent|].
  split; [rewrite advance_now; lia|].
  split; [rewrite advance_timers; by apply list_elem_of_filter|].
  split; [by rewrite advance_flushes, Hfl'|].
  exists st. by rewrite advance_heap, Hcell.
Qed.

Lemma act_filling a s B D F W :
  a.1 < D → filling s B D F W →
  filling s (B ++ written s [a]) D F (act W a).
Proof.
  intros Ha Hf. apply (advance_filling _ _ _ _ _ _ Ha) in Hf.
  destruct a as [τ [s' p|]]; unfold act; cbn [fst snd written].
  - case_decide as Hs.
    + subst s'. rewrite app_nil_r. by apply Write_filling.
    + rewrite app_nil_r. by apply Write_other.
  - by rewrite app_nil_r.
Qed.

Lemma written_cons s a l : written s (a :: l) = written s [a] ++ written s l.
Proof.
  destruct a as [τ [s' p|]]; cbn; [|done].
  case_decide; [by rewrite app_nil_r|done].
Qed.

Lemma run_filling l s B D F W :
  (∀ a, a ∈ l → a.1 < D) → filling s B D F W →
  filling s (B ++ written s l) D F (run W l).
Proof.
  revert B W. induction l as [|a l IH]; intros B W Hl Hf.
  { cbn. by rewrite app_nil_r. }
  rewrite written_cons, app_assoc. cbn [run foldl]. apply IH.
  - intros a' Ha'. apply Hl. by apply list_elem_of_further.
  - apply act_filling; [|done]. apply Hl, list_elem_of_here.
Qed.

(** When the window is over the timer fires: one flush of the whole
    buffer, after which the stream is idle again. *)
Lemma advance_flush τ s B D F W :
  D ≤ τ → filling s B D F W →
  consistent (advance τ W) ∧ idle s (advance τ W) ∧
  flushes s (advance τ W) = F ++ [B] ∧ now (advance τ W) = τ.
Proof.
  intros Hτ (Hc & Hnow & Hin & Hfl & st & Hst & Hb & Ht).
  pose proof (advance_consistent τ W Hc) as Hc'.
  destruct (fire_due_hit τ (timers W) W s D st) as [Hcell Hfl'];
    [apply (timers_once W Hc)|done..|].
  split; [done|]. split; [|split].
  - eexists. rewrite advance_heap, Hcell. split; [done|].
    split; [done|]. split; [done|]. intros d Hd.
    destruct (timers_set _ Hc' _ _ Hd) as (st' & Hst' & Hd').
    rewrite advance_heap, Hcell in Hst'. injection Hst' as <-. done.
  - rewrite advance_flushes, Hfl', Hfl, Hb. done.
  - rewrite advance_now. lia.
Qed.

(** One window: a first write at [τ0] to an idle stream, then any calls
    before [τ0] plus ten milliseconds, then the clock at or past it. *)
Lemma window_flush W s τ0 p rest τ :
  consistent W → idle s W → now W ≤ τ0 →
  (∀ a, a ∈ rest → a.1 < τ0 + time_Millisecond * 10) →
  τ0 + time_Millisecond * 10 ≤ τ →
  let W' := advance τ (run W ((τ0, AWrite s p) :: rest)) in
  consistent W' ∧ idle s W' ∧
  flushes s W' = flushes s W ++ [p ++ written s rest] ∧ now W' = τ.
Proof.
  intros Hc Hidle Hnow Hrest Hτ. cbn zeta. cbn [run foldl].
  destruct (idle_advance τ0 W s Hc Hidle) as [Hidle0 Hfl0].
  pose proof (Write_idle s p (advance τ0 W)
                (advance_consistent τ0 W Hc) Hidle0) as Hf.
  rewrite advance_now, Z.max_r, Hfl0 in Hf by done.
  apply (run_filling rest) in Hf; [|done].
  exact (advance_flush τ s _ _ _ _ Hτ Hf).
Qed.

(** A stream is idle when [Stream] returns it. *)
Lemma Stream_idle rt n W s W' :
  consistent W → Stream rt n W = (Ret s, W') → idle s W'.
Proof.
  intros Hc HS. destruct (streams (mux W) !! n) as [s0|] eqn:Hn.
  { by rewrite (Stream_taken _ _ _ _ Hn) in HS. }
  destruct (Stream_fresh rt n W Hn) as [Hf HS']. rewrite HS' in HS.
  injection HS as <- <-. eexists. cbn. rewrite lookup_insert_eq.
  repeat split. intros d Hd.
  destruct (timers_set W Hc _ _ Hd) as (st & Hst & _). congruence.
Qed.

(** The coalescing of writes when no call overlaps a callback (each
    runs to its end, as [run] and [advance] have them): take a stream
    with nothing buffered and no flush scheduled.  A
    write at [τ0] and all the writes that follow it before [τ0] plus ten
    milliseconds reach the sink together, as one flush of their bytes in
    the order they were written, once the clock is at or past the end
    of that window; the flush leaves the buffer empty and schedules
    nothing.  A write that comes then, at [τ1], opens a window of its
    own, and its bytes reach the sink in a second, later flush.  Writes
    to other streams may come in between. *)
Theorem writes_coalesce_per_window W s τ0 p1 rest1 τ1 p2 rest2 τ2 :
  consistent W → idle s W → now W ≤ τ0 →
  (∀ a, a ∈ rest1 → a.1 < τ0 + time_Millisecond * 10) →
  τ0 + time_Millisecond * 10 ≤ τ1 →
  (∀ a, a ∈ rest2 → a.1 < τ1 + time_Millisecond * 10) →
  τ1 + time_Millisecond * 10 ≤ τ2 →
  let l1 := (τ0, AWrite s p1) :: rest1 in
  let l2 := (τ1, AWrite s p2) :: rest2 in
  flushes s (advance τ1 (run W l1)) =
    flushes s W ++ [p1 ++ written s rest1] ∧
  idle s (advance τ1 (run W l1)) ∧
  flushes s (advance τ2 (run W (l1 ++ l2))) =
    flushes s W ++ [p1 ++ written s rest1; p2 ++ written s rest2] ∧
  idle s (advance τ2 (run W (l1 ++ l2))).
Proof.
  intros Hc Hidle Hnow Hrest1 Hτ1 Hrest2 Hτ2 l1 l2.
  destruct (window_flush W s τ0 p1 rest1 τ1 Hc Hidle Hnow Hrest1 Hτ1)
    as (Hc1 & Hidle1 & Hfl1 & Hnow1).
  fold l1 in Hc1, Hidle1, Hfl1, Hnow1.
  split; [done|]. split; [done|].
  assert (run W (l1 ++ l2) =
          run (Write s p2 (advance τ1 (run W l1))).2 rest2) as ->.
  { unfold run. by rewrite foldl_app. }
  pose proof (Write_idle s p2 _ Hc1 Hidle1) as Hf.
  rewrite Hnow1, Hfl1 in Hf.
  apply (run_filling rest2) in Hf; [|done].
  destruct (advance_flush τ2 s _ _ _ _ Hτ2 Hf) as (_ & Hidle2 & Hfl2 & _).
  split; [|done]. rewrite Hfl2. by rewrite <- app_assoc.
Qed.

Lemma sample_world_idle : idle 0%nat sample_world.
Proof.
  eexists. split; [vm_compute; reflexivity|]. repeat split.
  intros d Hd. vm_compute in Hd. by apply elem_of_nil in Hd.
Qed.

Lemma writes_coalesce_per_window_witness :
  flushes 0%nat
    (advance (ms 20)
       (run sample_world [(0, AWrite 0%nat bytes_a);
                          (ms 5, AWrite 0%nat bytes_b)])) =
    [bytes_a ++ bytes_b] ∧
  flushes 0%nat
    (advance (ms 40)
       (run sample_world [(0, AWrite 0%nat bytes_a);
                          (ms 20, AWrite 0%nat bytes_b)])) =
    [bytes_a; bytes_b].
Proof.
  split.
  - apply (writes_coalesce_per_window sample_world 0%nat 0 bytes_a
             [(ms 5, AWrite 0%nat bytes_b)] (ms 20) [] [] (ms 40)
             (reachable_consistent _ _ sample_world_reachable)
             sample_world_idle).
    + vm_compute. discriminate.
    + intros a Ha. apply list_elem_of_singleton in Ha. subst a.
      vm_compute. reflexivity.
    + vm_compute. discriminate.
    + intros a Ha. by apply elem_of_nil in Ha.
    + vm_compute. discriminate.
  - apply (writes_coalesce_per_window sample_world 0%nat 0 bytes_a
             [] (ms 20) bytes_b [] (ms 40)
             (reachable_consistent _ _ sample_world_reachable)
             sample_world_idle).
    + vm_compute. discriminate.
    + intros a Ha. by apply elem_of_nil in Ha.
    + vm_compute. discriminate.
    + intros a Ha. by apply elem_of_nil in Ha.
    + vm_compute. discriminate.
Defined.

(** * The write closure and the callback, run together *)

(** C7: nothing keeps the statements of a [Write] out of the middle of
    the callback.  For a stream that holds [B] with its flush due, run
    the callback and a [Write] of [p] as two threads of control under
    [racy_schedule]: both run to their end, the sink has received [B]
    and not [p], the buffer is empty and no flush is scheduled, so the
    bytes [p] reach the sink at no later time either. *)
Theorem write_lost_in_flush W s B D F p :
  filling s B D F W →
  let '(cb, W2) := fire_async D s W in
  let '(ths, Wf) := interleave racy_schedule [cb; (s, write_closure p)] W2 in
  ths = [(s, []); (s, [])] ∧
  (Write s p W2).1 = Ret (Z.of_nat (length p), None) ∧
  flushes s Wf = F ++ [B] ∧
  idle s Wf ∧
  ∀ τ, flushes s (advance τ Wf) = F ++ [B].
Proof.
  intros (Hc & Hnow & Hin & Hfl & st & Hst & Hb & Ht).
  unfold fire_async, racy_schedule, flush_callback, write_closure.
  cbn [interleave lookup list_lookup list_insert insert].
  set (W2 := set_now _ _).
  assert (heap W2 !! s = Some st) as Hst2 by done.
  assert (exec s ISinkWrite W2 = set_sink (sink W ++ [(s, B)]) W2) as ->.
  { unfold exec. by rewrite Hst2, Hb. }
  set (W3 := set_sink _ W2).
  assert (exec s (IBufWrite p) W3 =
          set_heap (<[s := set_b (B ++ p) st]> (heap W)) W3) as ->.
  { unfold exec. cbn [heap W3 set_sink]. by rewrite Hst2, Hb. }
  set (W4 := set_heap _ W3).
  assert (exec s ISchedule W4 = W4) as ->.
  { unfold exec. cbn [heap W4 set_heap]. rewrite lookup_insert_eq.
    cbn. by rewrite Ht. }
  assert (exec s IBufReset W4 =
          set_heap (<[s := set_b [] st]> (heap W)) W3) as ->.
  { unfold exec. cbn [heap W4 set_heap]. rewrite lookup_insert_eq.
    unfold set_heap. cbn. by rewrite insert_insert_eq. }
  set (W5 := set_heap _ W3).
  assert (exec s ITimerClear W5 =
          set_heap (<[s := set_t None (set_b [] st)]> (heap W)) W3) as ->.
  { unfold exec. cbn [heap W5 set_heap]. rewrite lookup_insert_eq.
    unfold set_heap. cbn. by rewrite insert_insert_eq. }
  set (Wf := set_heap _ W3).
  assert (flushes s Wf = F ++ [B]) as Hflf.
  { unfold flushes. cbn. rewrite filter_app.
    rewrite filter_cons_True; [|done].
    rewrite filter_nil, fmap_app. by rewrite <- Hfl. }
  assert (idle s Wf) as Hidle.
  { eexists. cbn. rewrite lookup_insert_eq. repeat split.
    intros d [Hd _]%list_elem_of_filter. by apply Hd. }
  split; [done|]. split; [apply Write_returns; eauto|].
  split; [done|]. split; [done|].
  intros τ. destruct Hidle as (st' & _ & _ & _ & Hno).
  destruct (fire_due_frame τ (timers Wf) Wf s) as [_ Hfr].
  { intros d Hd. by apply Hno in Hd. }
  by rewrite advance_flushes, Hfr.
Qed.

Lemma sample_world_filling :
  filling 0%nat bytes_a (ms 10) [] (Write 0%nat bytes_a sample_world).2.
Proof.
  apply (Write_idle 0%nat bytes_a sample_world
           (reachable_consistent _ _ sample_world_reachable)
           sample_world_idle).
Qed.

Lemma write_lost_in_flush_witness :
  (Write 0%nat bytes_b race_start).1 = Ret (1, None) ∧
  flushes 0%nat (advance (ms 40) (race_end racy_schedule)) = [bytes_a].
Proof.
  pose proof (write_lost_in_flush (Write 0%nat bytes_a sample_world).2
                0%nat bytes_a (ms 10) [] bytes_b sample_world_filling) as H.
  cbv beta iota zeta delta [fire_async] in H.
  unfold race_end, race_threads, race_start, fire_async. cbn [fst snd].
  destruct (interleave racy_schedule _ _) as [ths Wf] eqn:Hrun in H.
  rewrite Hrun. cbn [snd].
  destruct H as (_ & Hret & _ & _ & Hlost).
  split; [exact Hret|exact (Hlost (ms 40))].
Defined.

(** Each of the two orders in which the callback and the [Write] do not
    overlap brings both writes to the sink. *)
Lemma serial_orders_deliver :
  flushes 0%nat (advance (ms 40) (race_end [0; 0; 0; 1; 1]%nat)) =
    [bytes_a; bytes_b] ∧
  flushes 0%nat (advance (ms 40) (race_end [1; 1; 0; 0; 0]%nat)) =
    [bytes_a ++ bytes_b] ∧
  flushes 0%nat (advance (ms 40) (race_end racy_schedule)) = [bytes_a].
Proof. vm_compute. done. Qed.

(** Run alone, the statements of the callback do what the timer of the
    sequential model does. *)
Lemma callback_alone_is_advance :
  (interleave [0; 0; 0]%nat [(0%nat, flush_callback)] race_start).2 =
  advance (ms 10) (Write 0%nat bytes_a sample_world).2.
Proof. vm_compute. reflexivity. Qed.

(** ** A write that comes as the flush fires *)

(** The run of [racy_schedule], for any stream that is collecting
    writes. *)
Lemma racy_run W s B D F p :
  filling s B D F W →
  ∃ Wf, interleave racy_schedule
          [(fire_async D s W).1; (s, write_closure p)] (fire_async D s W).2 =
        ([(s, []); (s, [])], Wf) ∧
        flushes s Wf = F ++ [B] ∧ idle s Wf.
Proof.
  intros (Hc & Hnow & Hin & Hfl & st & Hst & Hb & Ht).
  unfold fire_async, racy_schedule, flush_callback, write_closure.
  cbn [fst snd interleave lookup list_lookup list_insert insert].
  set (W2 := set_now _ _).
  assert (heap W2 !! s = Some st) as Hst2 by done.
  assert (exec s ISinkWrite W2 = set_sink (sink W ++ [(s, B)]) W2) as ->.
  { unfold exec. by rewrite Hst2, Hb. }
  set (W3 := set_sink _ W2).
  assert (exec s (IBufWrite p) W3 =
          set_heap (<[s := set_b (B ++ p) st]> (heap W)) W3) as ->.
  { unfold exec. cbn [heap W3 set_sink]. by rewrite Hst2, Hb. }
  set (W4 := set_heap _ W3).
  assert (exec s ISchedule W4 = W4) as ->.
  { unfold exec. cbn [heap W4 set_heap]. rewrite lookup_insert_eq.
    cbn. by rewrite Ht. }
  assert (exec s IBufReset W4 =
          set_heap (<[s := set_b [] st]> (heap W)) W3) as ->.
  { unfold exec. cbn [heap W4 set_heap]. rewrite lookup_insert_eq.
    unfold set_heap. cbn. by rewrite insert_insert_eq. }
  set (W5 := set_heap _ W3).
  assert (exec s ITimerClear W5 =
          set_heap (<[s := set_t None (set_b [] st)]> (heap W)) W3) as ->.
  { unfold exec. cbn [heap W5 set_heap]. rewrite lookup_insert_eq.
    unfold set_heap. cbn. by rewrite insert_insert_eq. }
  eexists. split; [reflexivity|]. split.
  - unfold flushes. cbn. rewrite filter_app.
    rewrite filter_cons_True; [|done].
    rewrite filter_nil, fmap_app. by rewrite <- Hfl.
  - eexists. cbn. rewrite lookup_insert_eq. repeat split.
    intros d [Hd _]%list_elem_of_filter. by apply Hd.
Qed.

(** C1, at the input where the code departs from it: a stream with
    nothing buffered takes a write of [p1] at [τ0]; ten milliseconds
    later its flush fires, and a write of [p2] arrives while the
    callback runs ([racy_schedule]).  That [Write] returns the full
    count and no error, but the bytes [p2] get no flush, neither a
    later one of their own nor a place in the one of [p1]: the sink has
    received [p1] from the stream, and whatever the time, nothing
    more. *)
Theorem late_write_gets_no_flush W s τ0 p1 p2 :
  consistent W → idle s W → now W ≤ τ0 → p2 ≠ [] →
  let W1 := run W [(τ0, AWrite s p1)] in
  let D := τ0 + time_Millisecond * 10 in
  let Wf :=
    (interleave racy_schedule
       [(fire_async D s W1).1; (s, write_closure p2)]
       (fire_async D s W1).2).2 in
  (Write s p2 (fire_async D s W1).2).1 = Ret (Z.of_nat (length p2), None) ∧
  ∀ τ, flushes s (advance τ Wf) = flushes s W ++ [p1] ∧
       flushes s (advance τ Wf) ≠ flushes s W ++ [p1; p2] ∧
       flushes s (advance τ Wf) ≠ flushes s W ++ [p1 ++ p2].
Proof.
  intros Hc Hidle Hnow Hp2. cbn zeta.
  destruct (idle_advance τ0 W s Hc Hidle) as [Hidle0 Hfl0].
  pose proof (Write_idle s p1 (advance τ0 W)
                (advance_consistent τ0 W Hc) Hidle0) as Hf.
  rewrite advance_now, Z.max_r, Hfl0 in Hf by done.
  change (Write s p1 (advance τ0 W)).2
    with (run W [(τ0, AWrite s p1)]) in Hf.
  destruct (racy_run _ _ _ _ _ p2 Hf) as (Wf & Hrun & Hfl & Hidlef).
  rewrite Hrun. cbn [snd]. split.
  { apply Write_returns. destruct Hf as (_ & _ & _ & _ & st & Hst & _).
    exists st. exact Hst. }
  intros τ.
  assert (flushes s (advance τ Wf) = flushes s W ++ [p1]) as ->.
  { destruct Hidlef as (st' & _ & _ & _ & Hno).
    destruct (fire_due_frame τ (timers Wf) Wf s) as [_ Hfr].
    { intros d Hd. by apply Hno in Hd. }
    by rewrite advance_flushes, Hfr. }
  split; [done|]. split.
  - intros Heq%(f_equal length). rewrite !length_app in Heq. cbn in Heq. lia.
  - intros Heq%app_inv_head. injection Heq as Heq.
    apply (f_equal length) in Heq. rewrite length_app in Heq.
    destruct p2; [done|cbn in Heq; lia].
Qed.

Lemma late_write_gets_no_flush_witness :
  flushes 0%nat (advance (ms 40) (race_end racy_schedule)) = [bytes_a] ∧
  flushes 0%nat (advance (ms 40) (race_end racy_schedule)) ≠
    [bytes_a; bytes_b].
Proof.
  destruct (late_write_gets_no_flush sample_world 0%nat 0 bytes_a bytes_b
              (reachable_consistent _ _ sample_world_reachable)
              sample_world_idle) as [_ H].
  - vm_compute. discriminate.
  - discriminate.
  - destruct (H (ms 40)) as (H1 & H2 & _). split; [exact H1|exact H2].
Defined.

(** ** A reset in the middle of [b.Write] *)

(** Run alone, the two steps of [b.Write(p)] append [p], and the three
    steps of the closure do what the closure does as a whole. *)
Lemma write_steps_alone s p W st :
  heap W !! s = Some st →
  race [0; 0; 0]%nat [write_steps s p] W =
  Ret ([{| th_stream := s; th_m := length (w_b st); th_code := [] |}],
       exec_all s (write_closure p) W).
Proof.
  intros Hs. unfold write_steps, exec_all, write_closure.
  cbn [race lookup list_lookup list_insert insert foldl micro_step].
  rewrite Hs. cbn [heap set_heap]. rewrite lookup_insert_eq.
  cbn [w_b set_b]. rewrite decide_True by (rewrite length_app; lia).
  rewrite insert_insert_eq.
  assert (take (length (w_b st)) (w_b st ++ replicate (length p) x00)
          ++ take (length (w_b st ++ replicate (length p) x00)
                   - length (w_b st)) p
          ++ drop (length (w_b st) + length p)
               (w_b st ++ replicate (length p) x00) = w_b st ++ p) as ->.
  { rewrite take_app_length, length_app, length_replicate.
    rewrite drop_ge by (rewrite length_app, length_replicate; lia).
    rewrite take_ge by lia. by rewrite app_nil_r. }
  assert (exec s (IBufWrite p) W =
          set_heap (<[s := set_b (w_b st ++ p) st]> (heap W)) W) as ->.
  { unfold exec. by rewrite Hs. }
  done.
Qed.

(** C9, at the input where the code departs from it: a stream holds
    the bytes [B], not none, and its flush fires; the callback runs on
    its goroutine while a [Write] of [p] to the stream is between the
    two steps of its [b.Write(p)] ([reset_in_write]).  The callback runs
    [b.Reset()], the [Write] comes to [copy(b.buf[m:], p)] with [m] the
    length of [B], and panics: it returns neither a count nor an
    error. *)
Theorem write_panics_in_flush W s B D F p :
  filling s B D F W → B ≠ [] →
  race reset_in_write
    [callback_steps (fire_async D s W).1; write_steps s p]
    (fire_async D s W).2 =
  Panic (slice_bounds (length B) 0).
Proof.
  intros (Hc & Hnow & Hin & Hfl & st & Hst & Hb & Ht) HB.
  unfold fire_async, reset_in_write, callback_steps, write_steps,
    flush_callback.
  cbn [fst snd fmap list_fmap].
  set (W2 := set_now _ _).
  assert (heap W2 !! s = Some st) as Hst2 by done.
  cbn [race lookup list_lookup list_insert insert].
  unfold micro_step at 1. rewrite Hst2, Hb.
  set (W3 := set_heap _ W2).
  cbn [race lookup list_lookup list_insert insert micro_step].
  assert (exec s ISinkWrite W3 =
          set_sink (sink W ++ [(s, B ++ replicate (length p) x00)]) W3) as ->.
  { unfold exec. cbn [heap W3 set_heap]. by rewrite lookup_insert_eq. }
  set (W4 := set_sink _ W3).
  assert (heap (exec s IBufReset W4) !! s =
          Some (set_b [] (set_b (B ++ replicate (length p) x00) st))) as Hreset.
  { unfold exec. cbn [heap W4 W3 set_sink set_heap].
    rewrite lookup_insert_eq. cbn [heap set_heap].
    by rewrite lookup_insert_eq. }
  rewrite Hreset. cbn [w_b set_b length].
  rewrite decide_False; [done|].
  destruct B; [done|cbn; lia].
Qed.

Lemma write_panics_in_flush_witness :
  race reset_in_write
    [callback_steps (0%nat, flush_callback); write_steps 0%nat bytes_b]
    race_start =
  Panic "runtime error: slice bounds out of range [1:0]".
Proof.
  exact (write_panics_in_flush (Write 0%nat bytes_a sample_world).2
           0%nat bytes_a (ms 10) [] bytes_b sample_world_filling
           ltac:(discriminate)).
Defined.

(** * Runs on sample inputs *)

Example generateMachineID_of_entropy_a :
  generateMachineID entropy_a =
  Ret "6161616161616161616161616161616161616161616161616161616161616161".
Proof. reflexivity. Qed.

Example generateMachineID_no_entropy :
  generateMachineID [] = Panic "EOF".
Proof. reflexivity. Qed.

Example generateMachineID_short_entropy :
  generateMachineID (replicate 31 "a"%byte) = Panic "unexpected EOF".
Proof. reflexivity. Qed.

Example Start_arguments :
  args_of (Start (env_up 0) (handmade_machine "ab") sample_opts) =
  [ "-machine"; "accel=kvm:tcg"; "-cpu"; "host"; "-m"; "1G";
    "-nographic"; "-vga"; "none"; "-hda"; "/img"; "-snapshot";
    "-net"; "nic"; "-net"; "user";
    "-chardev"; "socket,id=serial,path=/run/user/1000/fog/ab.sock,server,nowait";
    "-serial"; "chardev:serial";
    "-chardev"; "socket,id=tty,path=/run/user/1000/fog/ab_tty.sock,server,nowait";
    "-serial"; "chardev:tty";
    "-chardev";
    "socket,id=monitor,path=/run/user/1000/fog/ab_monitor.sock,server,nowait";
    "-monitor"; "chardev:monitor";
    "-smbios"; "type=1,serial=ds=nocloud-net;s=http://10.0.2.2:8080/ab/" ].
Proof. vm_compute. reflexivity. Qed.

Example Start_without_binary :
  returned (Start env_nobin (handmade_machine "ab") sample_opts) =
  Ret (Some (wrapError
               "finding qemu binary: executable file not found in $PATH"
               (errorString "executable file not found in $PATH"))).
Proof. reflexivity. Qed.

Example Start_nil_options :
  returned (Start (env_up 0) (handmade_machine "ab") None) = Panic nil_deref.
Proof. reflexivity. Qed.

(** The socket appears one second and a half after the first dial: the
    third attempt connects. *)
Example Conn_third_attempt :
  let r := (Conn (env_up 1500000000) 0 started_machine).1 in
  events r =
    [EvLock;
     EvDial "unix" (addr started_machine); EvSleep time_Second;
     EvDial "unix" (addr started_machine); EvSleep time_Second;
     EvDial "unix" (addr started_machine);
     EvUnlock] ∧
  conn (machine r) =
    Some {| conn_addr := addr started_machine; conn_since := 2000000000 |}.
Proof. vm_compute. done. Qed.

(** A cached connection is returned without a dial. *)
Example Conn_cached :
  let m := machine (Conn (env_up 0) 0 started_machine).1 in
  events (Conn env_down 5 m).1 = [EvLock; EvUnlock] ∧
  returned (Conn env_down 5 m).1 = Ret (conn m, None).
Proof. vm_compute. done. Qed.

Example Stream_twice :
  (Stream sample_rt "web" sample_world).1 = Panic "Stream web already exists".
Proof. vm_compute. reflexivity. Qed.

Example refreshColors_sample :
  clr <$> heap (refreshColors sample_rt sample_world).2 !! 0%nat =
    Some {| R := 2; G := 2; B := 0 |} ∧
  clr <$> heap (refreshColors sample_rt sample_world).2 !! 1%nat =
    Some {| R := 3; G := 2; B := 1 |} ∧
  refreshColors sample_rt (refreshColors sample_rt sample_world).2 =
    (Ret (), (refreshColors sample_rt sample_world).2).
Proof. vm_compute. done. Qed.

(** Writes to the two streams in one window: one flush for each. *)
Example two_streams_one_window :
  sink (advance (ms 30)
          (run sample_world
             [(0, AWrite 0%nat bytes_a); (ms 1, AWrite 1%nat bytes_b);
              (ms 2, AWrite 0%nat bytes_b); (ms 3, AWrite 1%nat bytes_a)])) =
  [(0%nat, bytes_a ++ bytes_b); (1%nat, bytes_b ++ bytes_a)].
Proof. vm_compute. reflexivity. Qed.

(** * Further properties of machine.go *)

(** ** Identities *)

Lemma hex_byte_roundtrip (v : byte) :
  Byte.of_N (16 * unhex (hexdigit (N.shiftr (Byte.to_N v) 4))
             + unhex (hexdigit (N.land (Byte.to_N v) 15))) = Some v.
Proof. destruct v; vm_compute; reflexivity. Qed.

Lemma hex_EncodeToString_inj src1 src2 :
  hex_EncodeToString src1 = hex_EncodeToString src2 → src1 = src2.
Proof.
  revert src2. induction src1 as [|v src1 IH]; intros [|w src2] H;
    try done.
  cbn [hex_EncodeToString] in H. injection H as Hhi Hlo Hrest.
  f_equal; [|by apply IH].
  pose proof (hex_byte_roundtrip v) as Hv.
  rewrite Hhi, Hlo, hex_byte_roundtrip in Hv. congruence.
Qed.

Lemma hex_EncodeToString_app src1 src2 :
  hex_EncodeToString (src1 ++ src2) =
  hex_EncodeToString src1 +:+ hex_EncodeToString src2.
Proof.
  induction src1 as [|v src1 IH]; [done|].
  cbn [app hex_EncodeToString]. rewrite IH. done.
Qed.

(** Two generated identities are equal exactly when the 32 bytes of
    entropy they were made from are: the encoding loses nothing, and
    entropy past the 32nd byte plays no part. *)
Theorem generateMachineID_injective r1 r2 id1 id2 :
  generateMachineID r1 = Ret id1 →
  generateMachineID r2 = Ret id2 →
  (id1 = id2 ↔ take 32 r1 = take 32 r2).
Proof.
  unfold generateMachineID.
  case_decide; [|case_decide; discriminate].
  case_decide; [|case_decide; discriminate].
  intros [= <-] [= <-]. split.
  - apply hex_EncodeToString_inj.
  - by intros ->.
Qed.

Lemma generateMachineID_injective_witness :
  hex_EncodeToString (take 32 entropy_a) =
  hex_EncodeToString (take 32 entropy_b) ↔
  take 32 entropy_a = take 32 entropy_b.
Proof.
  apply (generateMachineID_injective entropy_a entropy_b); reflexivity.
Defined.



(** ** Start *)

(** [Start] step by step: the outcome of each branch of the function. *)
Ltac Start_cases env m opts :=
  unfold Start;
  destruct (exec_LookPath env "qemu-system-x86_64") as [?bin|?e] eqn:?Hbin;
  [destruct (xdg_RuntimeFile env ("fog/" +:+ ID m +:+ ".sock"))
     as [?a|?e] eqn:?Ha;
   cbn [ID set_addr set_monAddr Conf Name ImgPath];
   [destruct (xdg_RuntimeFile env ("fog/" +:+ ID m +:+ "_tty.sock"))
      as [?t|?e] eqn:?Ht;
    [destruct (xdg_RuntimeFile env ("fog/" +:+ ID m +:+ "_monitor.sock"))
       as [?mo|?e] eqn:?Hmo;
     [destruct opts as [?o|];
      [destruct (Conf m) as [?conf|] eqn:?Hconf;
       [destruct (cmd_Start env _ _) as [?e|] eqn:?Hrun|]|]|]|]|]|].

(** [Start] returns nil exactly when the binary is found, the three
    socket paths are obtained, the options and the configuration are
    not nil and the process starts.  It launches at most one process,
    as its last act, and only then: a call that fails or panics at an
    earlier step has launched nothing, and a launch is followed by nil
    or by the error of [cmd.Start] under [starting machine]. *)
Theorem Start_succeeds_iff env m opts :
  (returned (Start env m opts) = Ret None ↔
   ∃ bin a t mo o conf,
     exec_LookPath env "qemu-system-x86_64" = Ok bin ∧
     xdg_RuntimeFile env ("fog/" +:+ ID m +:+ ".sock") = Ok a ∧
     xdg_RuntimeFile env ("fog/" +:+ ID m +:+ "_tty.sock") = Ok t ∧
     xdg_RuntimeFile env ("fog/" +:+ ID m +:+ "_monitor.sock") = Ok mo ∧
     opts = Some o ∧ Conf m = Some conf ∧
     cmd_Start env bin
       (qemu_args (Memory conf) (ImgPath m) (fwds (Ports conf)) a t mo
          ("http://10.0.2.2:" +:+ pretty (imdsPort o) +:+ "/" +:+ ID m +:+ "/"))
     = None) ∧
  (length (filter (λ ev, is_launch ev = true) (events (Start env m opts))) ≤ 1)%nat ∧
  (∀ bin args, EvCmdStart bin args ∈ events (Start env m opts) →
     launch (events (Start env m opts)) = Some (bin, args) ∧
     (returned (Start env m opts) = Ret None ∧ cmd_Start env bin args = None
      ∨ ∃ e, cmd_Start env bin args = Some e ∧
             returned (Start env m opts) =
               Ret (Some (fmt_Errorf "starting machine: " e)))).
Proof.
  split; [|split].
  - split.
    + Start_cases env m opts; try discriminate. intros _.
      by exists bin, a, t, mo, o, conf.
    + intros (bin & a & t & mo & o & conf & Hbin & Ha & Ht & Hmo & -> & Hc & Hrun).
      unfold Start. rewrite Hbin, Ha.
      cbn [ID set_addr set_monAddr Conf Name ImgPath].
      by rewrite Ht, Hmo, Hc, Hrun.
  - Start_cases env m opts; cbn; repeat case_decide; try done; cbn; lia.
  - intros bin' args'.
    Start_cases env m opts; cbn [events finish app];
      rewrite ?elem_of_cons, ?elem_of_nil; intros Hin;
      repeat (destruct Hin as [Hin|Hin]; try discriminate Hin); try done;
      injection Hin as -> ->; (split; [done|]); cbn [returned finish]; eauto.
Qed.

Lemma Start_succeeds_iff_witness :
  returned (Start (env_up 0) machine_a sample_opts) = Ret None.
Proof.
  destruct (Start_succeeds_iff (env_up 0) machine_a sample_opts) as [[_ H] _].
  apply H. do 6 eexists. repeat split; reflexivity.
Defined.

(** [Start] changes nothing of a machine but the two socket paths it
    keeps.  The primary path is stored as soon as it is obtained, so it
    stays stored when a later step fails; when the binary is not found
    the machine is left as it was. *)
Theorem Start_keeps_identity env m opts :
  let m' := machine (Start env m opts) in
  (ID m' = ID m ∧ Name m' = Name m ∧ Conf m' = Conf m ∧ Img m' = Img m ∧
   ImgPath m' = ImgPath m ∧ conn m' = conn m) ∧
  (∀ bin a, exec_LookPath env "qemu-system-x86_64" = Ok bin →
            xdg_RuntimeFile env ("fog/" +:+ ID m +:+ ".sock") = Ok a →
            addr m' = a) ∧
  (∀ e, exec_LookPath env "qemu-system-x86_64" = Err e → m' = m) ∧
  (∀ bin e, exec_LookPath env "qemu-system-x86_64" = Ok bin →
            xdg_RuntimeFile env ("fog/" +:+ ID m +:+ ".sock") = Err e →
            m' = m) ∧
  (monAddr m' = monAddr m ∨
   xdg_RuntimeFile env ("fog/" +:+ ID m +:+ "_monitor.sock") = Ok (monAddr m')).
Proof.
  cbn zeta. split; [|split; [|split; [|split]]].
  - Start_cases env m opts; done.
  - intros bin' a' Hb Hp. revert Hb Hp.
    Start_cases env m opts; cbn; congruence.
  - intros e' He. revert He. Start_cases env m opts; cbn; congruence.
  - intros bin' e' Hb Hp. revert Hb Hp.
    Start_cases env m opts; cbn; congruence.
  - Start_cases env m opts; cbn; auto.
Qed.

(** An environment in which the runtime directory gives out the primary
    socket path only. *)
Lemma Start_keeps_identity_witness :
  addr (machine
          (Start {| exec_LookPath := exec_LookPath (env_up 0);
                    xdg_RuntimeFile := λ rel,
                      if String.eqb rel "fog/ab.sock"
                      then Ok "/run/user/1000/fog/ab.sock"
                      else Err (errorString "mkdir: permission denied");
                    cmd_Start := cmd_Start (env_up 0);
                    net_Dial := net_Dial (env_up 0) |}
             (handmade_machine "ab") sample_opts)) =
  "/run/user/1000/fog/ab.sock".
Proof.
  destruct (Start_keeps_identity
              {| exec_LookPath := exec_LookPath (env_up 0);
                 xdg_RuntimeFile := λ rel,
                   if String.eqb rel "fog/ab.sock"
                   then Ok "/run/user/1000/fog/ab.sock"
                   else Err (errorString "mkdir: permission denied");
                 cmd_Start := cmd_Start (env_up 0);
                 net_Dial := net_Dial (env_up 0) |}
              (handmade_machine "ab") sample_opts) as (_ & H & _).
  apply (H "/usr/bin/qemu-system-x86_64"); reflexivity.
Defined.

(** ** Conn *)

(** [Conn] on a machine with a cached connection. *)
Lemma Conn_fast_path env now m c :
  conn m = Some c →
  Conn env now m = (finish (Ret (Some c, None)) m [EvLock; EvUnlock], now).
Proof. intros Hc. unfold Conn, openConn. by rewrite Hc. Qed.

(** [Conn] on a machine with none: the three dials, one after another. *)
Ltac Conn_cases env now m :=
  unfold Conn, openConn;
  match goal with H : conn m = None |- _ => rewrite H end;
  cbn [openConn_loop];
  destruct (net_Dial env now "unix" (addr m)) as [?c|?e] eqn:?Hd0;
  [|destruct (net_Dial env (now + time_Second) "unix" (addr m))
      as [?c|?e] eqn:?Hd1;
    [|destruct (net_Dial env (now + time_Second + time_Second) "unix" (addr m))
        as [?c|?e] eqn:?Hd2]];
  cbn.

Ltac conn_goal :=
  repeat split;
  first [congruence | unfold dial_instant; lia | repeat case_decide; done].

Lemma dial_instants now :
  dial_instant now 0 = now ∧
  dial_instant now 1 = now + time_Second ∧
  dial_instant now 2 = now + time_Second + time_Second.
Proof. unfold dial_instant. repeat split; lia. Qed.

(** Once [Conn] has returned a connection it returns that connection to
    every later call, at once and without dialling, whatever has become
    of the socket: the cached connection is not checked. *)
Theorem Conn_caches env now m c :
  returned (Conn env now m).1 = Ret (Some c, None) →
  let m1 := machine (Conn env now m).1 in
  conn m1 = Some c ∧
  ∀ env' now',
    returned (Conn env' now' m1).1 = Ret (Some c, None) ∧
    events (Conn env' now' m1).1 = [EvLock; EvUnlock] ∧
    machine (Conn env' now' m1).1 = m1 ∧
    (Conn env' now' m1).2 = now'.
Proof.
  intros Hret. cbn zeta.
  assert (conn (machine (Conn env now m).1) = Some c) as Hc.
  { destruct (conn m) as [c0|] eqn:Hm.
    - rewrite (Conn_fast_path _ _ _ _ Hm) in *. cbn in *. congruence.
    - revert Hret. Conn_cases env now m; congruence. }
  split; [done|]. intros env' now'.
  by rewrite (Conn_fast_path _ _ _ _ Hc).
Qed.

Lemma Conn_caches_witness :
  returned
    (Conn env_down 5000000000
       (machine (Conn (env_up 0) 0 started_machine).1)).1 =
  Ret (Some {| conn_addr := addr started_machine; conn_since := 0 |}, None).
Proof.
  destruct (Conn_caches (env_up 0) 0 started_machine
              {| conn_addr := addr started_machine; conn_since := 0 |}
              eq_refl) as [_ H].
  apply (H env_down 5000000000).
Defined.

(** With no cached connection, [Conn] returns the connection of the
    first of its three dials that succeeds, one second after each dial
    that failed before it, and caches it; it returns an error exactly
    when the three dials fail. *)
Theorem Conn_first_success env now m :
  conn m = None →
  (∀ k c, (k < 3)%nat →
     net_Dial env (dial_instant now k) "unix" (addr m) = Ok c →
     (∀ j, (j < k)%nat →
        ∃ e, net_Dial env (dial_instant now j) "unix" (addr m) = Err e) →
     returned (Conn env now m).1 = Ret (Some c, None) ∧
     conn (machine (Conn env now m).1) = Some c ∧
     (Conn env now m).2 = dial_instant now k ∧
     length (filter (λ ev, is_dial ev = true) (events (Conn env now m).1))
       = S k) ∧
  ((∃ e, returned (Conn env now m).1 = Ret (None, Some e)) ↔
   ∀ k, (k < 3)%nat →
     ∃ e, net_Dial env (dial_instant now k) "unix" (addr m) = Err e).
Proof.
  intros Hc.
  destruct (dial_instants now) as (I0 & I1 & I2).
  split.
  - intros k c Hk Hok Hbefore.
    assert (k = 0 ∨ k = 1 ∨ k = 2)%nat as [-> | [-> | ->]] by lia.
    + rewrite I0 in Hok.
      Conn_cases env now m; try congruence; conn_goal.
    + rewrite I1 in Hok.
      destruct (Hbefore 0%nat) as [e0 He0]; [lia|]. rewrite I0 in He0.
      Conn_cases env now m; try congruence; conn_goal.
    + rewrite I2 in Hok.
      destruct (Hbefore 0%nat) as [e0 He0]; [lia|]. rewrite I0 in He0.
      destruct (Hbefore 1%nat) as [e1 He1]; [lia|]. rewrite I1 in He1.
      Conn_cases env now m; try congruence; conn_goal.
  - split.
    + intros [e He] k Hk.
      assert (k = 0 ∨ k = 1 ∨ k = 2)%nat as [-> | [-> | ->]] by lia;
        rewrite ?I0, ?I1, ?I2; revert He;
        Conn_cases env now m; intros; try discriminate; eauto.
    + intros Hall.
      destruct (Hall 0%nat) as [e0 He0]; [lia|]. rewrite I0 in He0.
      destruct (Hall 1%nat) as [e1 He1]; [lia|]. rewrite I1 in He1.
      destruct (Hall 2%nat) as [e2 He2]; [lia|]. rewrite I2 in He2.
      Conn_cases env now m; try congruence. eauto.
Qed.

Lemma Conn_first_success_witness :
  returned (Conn (env_up 1500000000) 0 started_machine).1 =
    Ret (Some {| conn_addr := addr started_machine;
                 conn_since := 2000000000 |}, None) ∧
  (Conn (env_up 1500000000) 0 started_machine).2 = 2000000000.
Proof.
  destruct (Conn_first_success (env_up 1500000000) 0 started_machine eq_refl)
    as [H _].
  destruct (H 2%nat {| conn_addr := addr started_machine;
                       conn_since := 2000000000 |})
    as (Hr & _ & Ht & _).
  - lia.
  - reflexivity.
  - intros j Hj. exists (errorString "connect: no such file or directory").
    destruct j as [|[|j]]; [reflexivity|reflexivity|lia].
  - split; [exact Hr|exact Ht].
Defined.

Ltac shape_goal :=
  first
    [ done
    | lia
    | repeat case_decide; try done; cbn; lia
    | let ev := fresh "ev" in
      let Hin := fresh "Hin" in
      intros ev Hin ?;
      repeat (apply elem_of_cons in Hin as [->|Hin]; try done);
      by apply elem_of_nil in Hin ].

(** Whatever the machine and the environment, [Conn] returns either a
    connection and no error or no connection and an error, with the
    cache set in the first case and empty in the second; it takes the
    lock once, first, and releases it once, last; it sleeps at most
    three times, for one second each time it asks; and it changes
    nothing of the machine but the cache. *)
Theorem Conn_result_shape env now m :
  let r := (Conn env now m).1 in
  ((∃ c, returned r = Ret (Some c, None) ∧ conn (machine r) = Some c) ∨
   (∃ e, returned r = Ret (None, Some e) ∧ conn (machine r) = None)) ∧
  head (events r) = Some EvLock ∧ last (events r) = Some EvUnlock ∧
  length (filter (λ ev, is_lock ev = true) (events r)) = 1%nat ∧
  length (filter (λ ev, is_unlock ev = true) (events r)) = 1%nat ∧
  (length (filter (λ ev, is_sleep ev = true) (events r)) ≤ 3)%nat ∧
  (∀ ev, ev ∈ events r → is_sleep ev = true → ev = EvSleep time_Second) ∧
  ID (machine r) = ID m ∧ addr (machine r) = addr m ∧
  monAddr (machine r) = monAddr m ∧ Conf (machine r) = Conf m.
Proof.
  cbn zeta. destruct (conn m) as [c0|] eqn:Hc.
  - rewrite (Conn_fast_path _ _ _ _ Hc). cbn.
    split; [left; eauto|]. repeat split; shape_goal.
  - Conn_cases env now m;
      (split; [first [left; by eauto | right; by eauto]|]);
      repeat split; shape_goal.
Qed.

Lemma Conn_result_shape_witness :
  last (events (Conn env_down 0 started_machine).1) = Some EvUnlock ∧
  (length (filter (λ ev, is_sleep ev = true)
             (events (Conn env_down 0 started_machine).1)) ≤ 3)%nat.
Proof.
  destruct (Conn_result_shape env_down 0 started_machine)
    as (_ & _ & Hl & _ & _ & Hs & _).
  split; [exact Hl|exact Hs].
Defined.

(** ** The metadata URL *)

Lemma metadata_url_inj (p1 p2 : Z) id1 id2 :
  String.length id1 = String.length id2 →
  pretty p1 +:+ "/" +:+ id1 +:+ "/" = pretty p2 +:+ "/" +:+ id2 +:+ "/" →
  p1 = p2 ∧ id1 = id2.
Proof.
  intros Hlen Heq. apply (f_equal list_ascii_of_string) in Heq.
  rewrite !chars_app in Heq. apply (f_equal reverse) in Heq.
  rewrite !reverse_app in Heq. cbn in Heq.
  rewrite <- !app_assoc in Heq. cbn in Heq. injection Heq as Heq.
  apply app_inj_1 in Heq as [Hid Hp];
    [|by rewrite !length_reverse, !chars_length].
  split.
  - injection Hp as Hp. apply (f_equal reverse) in Hp.
    rewrite !reverse_involutive in Hp. apply chars_inj in Hp.
    by apply (inj pretty).
  - apply (f_equal reverse) in Hid. rewrite !reverse_involutive in Hid.
    by apply chars_inj.
Qed.

(** The last argument of the launch carries the metadata URL, made of
    the port of the options and the identity of the machine; for
    machines made by [NewMachine], two launches carry the same URL only
    if they are of the same identity with the same port. *)
Theorem metadata_url_identifies env1 env2 r1 r2 n1 n2 c1 c2 i1 i2 ip1 ip2
    m1 m2 o1 o2 bin1 bin2 args1 args2 :
  NewMachine r1 n1 c1 i1 ip1 = Ret m1 →
  NewMachine r2 n2 c2 i2 ip2 = Ret m2 →
  launch (events (Start env1 m1 (Some o1))) = Some (bin1, args1) →
  launch (events (Start env2 m2 (Some o2))) = Some (bin2, args2) →
  args1 !! 29%nat =
    Some ("type=1,serial=ds=nocloud-net;s=http://10.0.2.2:" +:+
          pretty (imdsPort o1) +:+ "/" +:+ ID m1 +:+ "/") ∧
  (args1 !! 29%nat = args2 !! 29%nat →
   ID m1 = ID m2 ∧ imdsPort o1 = imdsPort o2).
Proof.
  intros [Hl1 _]%NewMachine_ID [Hl2 _]%NewMachine_ID L1 L2.
  destruct (Start_launch_inv _ _ _ _ _ L1)
    as (? & ? & ? & o1' & ? & _ & _ & _ & _ & [= <-] & _ & _ & _ & ->).
  destruct (Start_launch_inv _ _ _ _ _ L2)
    as (? & ? & ? & o2' & ? & _ & _ & _ & _ & [= <-] & _ & _ & _ & ->).
  split; [reflexivity|]. cbn [qemu_args lookup list_lookup].
  intros [= Heq].
  apply metadata_url_inj in Heq as [Hp Hid]; [done|by rewrite Hl1, Hl2].
Qed.

Lemma metadata_url_identifies_witness :
  args_of (Start (env_up 0) machine_a sample_opts) !! 29%nat =
  Some ("type=1,serial=ds=nocloud-net;s=http://10.0.2.2:" +:+
        pretty 8080 +:+ "/" +:+ ID machine_a +:+ "/").
Proof.
  apply (metadata_url_identifies (env_up 0) (env_up 0) entropy_a entropy_a
           "vm" "vm" (Some {| Memory := "1G"; Ports := [] |})
           (Some {| Memory := "1G"; Ports := [] |}) None None "/img" "/img"
           machine_a machine_a {| imdsPort := 8080 |} {| imdsPort := 8080 |}
           "/usr/bin/qemu-system-x86_64" "/usr/bin/qemu-system-x86_64"
           (args_of (Start (env_up 0) machine_a sample_opts))
           (args_of (Start (env_up 0) machine_a sample_opts))
           eq_refl eq_refl eq_refl eq_refl).
Defined.

(** * Further properties of the log multiplexer *)

(** ** One call at a time *)

Lemma Stream_frame rt n W :
  sink (Stream rt n W).2 = sink W ∧ timers (Stream rt n W).2 = timers W ∧
  now (Stream rt n W).2 = now W ∧
  bufMs (mux (Stream rt n W).2) = bufMs (mux W) ∧
  (∀ n' s, streams (mux W) !! n' = Some s →
           streams (mux (Stream rt n W).2) !! n' = Some s) ∧
  (∀ s st, heap W !! s = Some st → heap (Stream rt n W).2 !! s = Some st).
Proof.
  destruct (streams (mux W) !! n) as [s0|] eqn:Hn.
  - by rewrite (Stream_taken _ _ _ _ Hn).
  - destruct (Stream_fresh rt n W Hn) as [Hf ->]. cbn.
    repeat split; try done.
    + intros n' s Hs. rewrite lookup_insert_ne; [done|congruence].
    + intros s st Hs. rewrite lookup_insert_ne; [done|congruence].
Qed.

Lemma Write_frame s p W :
  sink (Write s p W).2 = sink W ∧ now (Write s p W).2 = now W ∧
  mux (Write s p W).2 = mux W.
Proof.
  unfold Write. destruct (heap W !! s) as [st|] eqn:Hs; [|done].
  cbn [snd]. rewrite (write_closure_run _ _ _ _ Hs). by destruct (w_t st).
Qed.

(** A write to [s'] and the buffer of [s]. *)
Lemma Write_buffer s' p W s st :
  heap W !! s = Some st →
  ∃ st', heap (Write s' p W).2 !! s = Some st' ∧
         w_b st' = (if decide (s' = s) then w_b st ++ p else w_b st).
Proof.
  intros Hs. unfold Write. destruct (decide (s' = s)) as [->|Hne].
  - rewrite Hs. cbn [snd]. rewrite (write_closure_run _ _ _ _ Hs).
    destruct (w_t st); cbn; rewrite lookup_insert_eq; eauto.
  - destruct (heap W !! s') as [st0|] eqn:Hs'; cbn [snd]; [|eauto].
    rewrite (write_closure_run _ _ _ _ Hs').
    destruct (w_t st0); cbn; rewrite lookup_insert_ne by done; eauto.
Qed.

Lemma refreshColors_frame rt W :
  sink (refreshColors rt W).2 = sink W ∧
  timers (refreshColors rt W).2 = timers W ∧
  now (refreshColors rt W).2 = now W ∧
  streams (mux (refreshColors rt W).2) = streams (mux W) ∧
  bufMs (mux (refreshColors rt W).2) = bufMs (mux W) ∧
  (∀ s st, heap W !! s = Some st →
     ∃ c, heap (refreshColors rt W).2 !! s = Some (set_clr c st)) ∧
  (∀ s st', heap (refreshColors rt W).2 !! s = Some st' →
     ∃ st c, heap W !! s = Some st ∧ st' = set_clr c st).
Proof.
  unfold refreshColors. destruct (isDirty (mux W)); cbn [negb].
  2:{ repeat split; try done.
      - intros s st Hs. exists (clr st). by rewrite set_clr_clr.
      - intros s st' Hs. exists st', (clr st'). by rewrite set_clr_clr. }
  cbn [FastHappyPalette heap set_draws].
  destruct (recolor _ 0 _ (heap W)) as [h|] eqn:Hr; cbn.
  - repeat split; try done.
    + intros s st Hs. pose proof (recolor_cells _ _ _ _ _ s Hr) as Hc.
      by rewrite Hs in Hc.
    + intros s st' Hs. pose proof (recolor_cells _ _ _ _ _ s Hr) as Hc.
      destruct (heap W !! s) as [st|]; [|congruence].
      destruct Hc as [c Hc]. exists st, c. split; congruence.
  - repeat split; try done.
    + intros s st Hs. exists (clr st). by rewrite set_clr_clr.
    + intros s st' Hs. exists st', (clr st'). by rewrite set_clr_clr.
Qed.

(** What the clock moving on does to one stream: its timer, if it is
    due, flushes the whole buffer once; otherwise nothing happens to it. *)
Lemma advance_stream τ W s st :
  consistent W → heap W !! s = Some st →
  (∃ D, (D, s) ∈ timers W ∧ D ≤ τ ∧ w_t st = Some D ∧
        heap (advance τ W) !! s = Some (set_t None (set_b [] st)) ∧
        flushes s (advance τ W) = flushes s W ++ [w_b st]) ∨
  ((∀ d, (d, s) ∈ timers W → τ < d) ∧
   heap (advance τ W) !! s = Some st ∧
   flushes s (advance τ W) = flushes s W).
Proof.
  intros Hc Hs.
  assert (∀ d, (d, s) ∈ timers W → w_t st = Some d) as Hown.
  { intros d Hd. destruct (timers_set W Hc _ _ Hd) as (st' & ? & ?).
    congruence. }
  rewrite advance_heap, advance_flushes.
  destruct (w_t st) as [D|] eqn:Ht.
  - destruct (decide ((D, s) ∈ timers W ∧ D ≤ τ)) as [[Hin HD]|Hno].
    + left. exists D.
      destruct (fire_due_hit τ (timers W) W s D st) as [? ?];
        [apply (timers_once W Hc)|done..|]. done.
    + right.
      assert (∀ d, (d, s) ∈ timers W → τ < d) as Hlate.
      { intros d Hd. pose proof (Hown d Hd) as [= <-].
        destruct (decide (τ < D)); [done|]. exfalso. apply Hno. split; [done|lia]. }
      destruct (fire_due_frame τ (timers W) W s Hlate) as [-> ->]. done.
  - right.
    assert (∀ d, (d, s) ∈ timers W → τ < d) as Hlate.
    { intros d Hd. by specialize (Hown d Hd). }
    destruct (fire_due_frame τ (timers W) W s Hlate) as [-> ->]. done.
Qed.

Lemma perform_consistent rt W c : consistent W → consistent (perform rt W c).
Proof. destruct c; unfold perform; auto with mux. Qed.

Lemma perform_all_consistent rt W cs :
  consistent W → consistent (perform_all rt W cs).
Proof.
  revert W. induction cs as [|c cs IH]; intros W Hc; [done|].
  apply IH, perform_consistent, Hc.
Qed.


Lemma advance_mux τ W : mux (advance τ W) = mux W.
Proof.
  rewrite advance_unfold. cbn.
  by destruct (fire_due_fields τ (timers W) W) as (-> & _).
Qed.

Lemma advance_cell_back τ W s st' :
  heap (advance τ W) !! s = Some st' → is_Some (heap W !! s).
Proof.
  intros Hs. pose proof (advance_cell τ W s) as Hc.
  destruct (heap W !! s); [eauto|congruence].
Qed.

(** ** Reachable worlds are settled *)

Lemma NewLogMux_settled t0 : settled (NewLogMux t0).
Proof.
  split; cbn.
  - intros s st d Hs. by rewrite lookup_empty in Hs.
  - intros d s Hd. by apply elem_of_nil in Hd.
  - intros s st Hs. by rewrite lookup_empty in Hs.
Qed.

Lemma Stream_settled rt n W : settled W → settled (Stream rt n W).2.
Proof.
  intros [Hp Hd Hn].
  destruct (streams (mux W) !! n) as [s0|] eqn:Hs0.
  - rewrite (Stream_taken _ _ _ _ Hs0). by split.
  - destruct (Stream_fresh rt n W Hs0) as [Hf ->]. split; cbn.
    + intros s st d. destruct (decide (fresh (dom (heap W)) = s)) as [<-|Hne].
      * rewrite lookup_insert_eq. by intros [= <-].
      * rewrite lookup_insert_ne by done. apply Hp.
    + done.
    + intros s st. destruct (decide (fresh (dom (heap W)) = s)) as [<-|Hne].
      * rewrite lookup_insert_eq. by intros [= <-].
      * rewrite lookup_insert_ne by done. apply Hn.
Qed.

Lemma Write_settled s p W : settled W → settled (Write s p W).2.
Proof.
  intros [Hp Hd Hn]. unfold Write.
  destruct (heap W !! s) as [st|] eqn:Hs; [|by split].
  cbn [snd]. rewrite (write_closure_run _ _ _ _ Hs).
  destruct (w_t st) as [d0|] eqn:Ht; split; cbn.
  - intros s' st' d. destruct (decide (s = s')) as [<-|Hne].
    + rewrite lookup_insert_eq. intros [= <-]. cbn. rewrite Ht.
      intros [= <-]. by eapply Hp.
    + rewrite lookup_insert_ne by done. apply Hp.
  - done.
  - intros s' st'. destruct (decide (s = s')) as [<-|Hne].
    + rewrite lookup_insert_eq. intros [= <-]. cbn. congruence.
    + rewrite lookup_insert_ne by done. apply Hn.
  - intros s' st' d. destruct (decide (s = s')) as [<-|Hne].
    + rewrite lookup_insert_eq. intros [= <-]. cbn. intros [= <-].
      apply elem_of_app. right. apply list_elem_of_here.
    + rewrite lookup_insert_ne by done. intros Hs' Hd'.
      apply elem_of_app. left. by eapply Hp.
  - intros d s' [Hin|[= -> ->]%list_elem_of_singleton]%elem_of_app;
      [exact (Hd _ _ Hin)|lia].
  - intros s' st'. destruct (decide (s = s')) as [<-|Hne].
    + rewrite lookup_insert_eq. by intros [= <-].
    + rewrite lookup_insert_ne by done. apply Hn.
Qed.

Lemma refreshColors_settled rt W :
  settled W → settled (refreshColors rt W).2.
Proof.
  intros [Hp Hd Hn].
  destruct (refreshColors_frame rt W) as (_ & Ht & Hnow & _ & Hb & _ & Hback).
  split.
  - intros s st' d Hs Hwt. rewrite Ht.
    destruct (Hback _ _ Hs) as (st & c & Hst & ->). exact (Hp _ _ _ Hst Hwt).
  - intros d s. rewrite Ht, Hnow, Hb. apply Hd.
  - intros s st' Hs Hwt.
    destruct (Hback _ _ Hs) as (st & c & Hst & ->). exact (Hn _ _ Hst Hwt).
Qed.

Lemma advance_settled τ W :
  consistent W → settled W → settled (advance τ W).
Proof.
  intros Hc [Hp Hd Hn]. split.
  - intros s st' d Hs Hwt.
    destruct (advance_cell_back _ _ _ _ Hs) as [st Hst].
    destruct (advance_stream τ W s st Hc Hst)
      as [(D & _ & _ & _ & Hcell & _)|(Hlate & Hcell & _)].
    + rewrite Hcell in Hs. injection Hs as <-. done.
    + rewrite Hcell in Hs. injection Hs as <-.
      rewrite advance_timers. apply list_elem_of_filter.
      pose proof (Hp _ _ _ Hst Hwt) as Hin. split; [by apply Hlate|done].
  - intros d s. rewrite advance_timers, advance_now, advance_mux.
    intros [_ Hin]%list_elem_of_filter. specialize (Hd _ _ Hin). lia.
  - intros s st' Hs Hwt.
    destruct (advance_cell_back _ _ _ _ Hs) as [st Hst].
    destruct (advance_stream τ W s st Hc Hst)
      as [(D & _ & _ & _ & Hcell & _)|(Hlate & Hcell & _)].
    + rewrite Hcell in Hs. by injection Hs as <-.
    + rewrite Hcell in Hs. injection Hs as <-. by eapply Hn.
Qed.

Lemma reachable_settled rt W : reachable rt W → settled W.
Proof.
  induction 1 as [| | | |W τ Hr IH].
  - apply NewLogMux_settled.
  - by apply Stream_settled.
  - by apply Write_settled.
  - by apply refreshColors_settled.
  - apply advance_settled; [by eapply reachable_consistent|done].
Qed.

(** ** Handles *)

Lemma perform_keeps rt W c n s st :
  streams (mux W) !! n = Some s → heap W !! s = Some st →
  ∃ st', streams (mux (perform rt W c)) !! n = Some s ∧
         heap (perform rt W c) !! s = Some st' ∧ name st' = name st.
Proof.
  intros Hn Hs. destruct c as [n'|s' p| |τ]; unfold perform.
  - destruct (Stream_frame rt n' W) as (_ & _ & _ & _ & Hreg & Hcell).
    exists st. auto.
  - destruct (Write_frame s' p W) as (_ & _ & ->).
    pose proof (Write_cell s' p W s) as Hc. rewrite Hs in Hc.
    destruct Hc as (st' & ? & ? & _). exists st'. auto.
  - destruct (refreshColors_frame rt W) as (_ & _ & _ & -> & _ & Hcell & _).
    destruct (Hcell _ _ Hs) as [c ->]. eexists. auto.
  - rewrite advance_mux. pose proof (advance_cell τ W s) as Hc.
    rewrite Hs in Hc. destruct Hc as (st' & ? & ? & _). exists st'. auto.
Qed.

(** Nothing unregisters a stream: whatever calls follow, a registered
    name keeps its handle, and the handle keeps pointing to a stream of
    that name. *)
Theorem handle_stays_valid rt W n s st cs :
  streams (mux W) !! n = Some s → heap W !! s = Some st →
  let W' := perform_all rt W cs in
  streams (mux W') !! n = Some s ∧
  ∃ st', heap W' !! s = Some st' ∧ name st' = name st.
Proof.
  cbn zeta. revert W st. induction cs as [|c cs IH]; intros W st Hn Hs.
  - cbn. split; [done|]. eauto.
  - destruct (perform_keeps rt W c n s st Hn Hs) as (st1 & Hn1 & Hs1 & Hname).
    destruct (IH _ _ Hn1 Hs1) as (? & st' & ? & ?).
    split; [done|]. exists st'. split; [done|congruence].
Qed.

Lemma handle_stays_valid_witness :
  streams
    (mux (perform_all sample_rt sample_world
            [CWrite 0%nat bytes_a; CStream "cache"; CRefresh; CTick (ms 50)]))
    !! "web" = Some 0%nat.
Proof.
  eapply (handle_stays_valid sample_rt sample_world "web" 0%nat);
    vm_compute; reflexivity.
Defined.

(** In every world a program can reach, the stream a name points to
    carries that name, and two names never share a stream. *)
Theorem registered_names_distinct rt W :
  reachable rt W →
  (∀ n s, streams (mux W) !! n = Some s →
     ∃ st, heap W !! s = Some st ∧ name st = n) ∧
  (∀ n1 n2 s, streams (mux W) !! n1 = Some s →
              streams (mux W) !! n2 = Some s → n1 = n2).
Proof.
  intros Hr. pose proof (reachable_consistent rt W Hr) as [Ha _ _ _].
  split; [done|]. intros n1 n2 s H1 H2.
  destruct (Ha _ _ H1) as (st1 & Hst1 & <-).
  destruct (Ha _ _ H2) as (st2 & Hst2 & <-). congruence.
Qed.

Lemma registered_names_distinct_witness :
  ∃ st, heap sample_world !! 0%nat = Some st ∧ name st = "web".
Proof.
  destruct (registered_names_distinct sample_rt sample_world
              sample_world_reachable) as [H _].
  apply (H "web" 0%nat). vm_compute. reflexivity.
Defined.

(** ** Timers *)


(** In every world a program can reach, a stream has at most one flush
    pending, and a flush is pending for a stream exactly when the [t]
    of the stream holds it. *)
Theorem one_timer_per_stream rt W :
  reachable rt W →
  NoDup (timers W).*2 ∧
  ∀ d s, (d, s) ∈ timers W ↔
         ∃ st, heap W !! s = Some st ∧ w_t st = Some d.
Proof.
  intros Hr. pose proof (reachable_consistent rt W Hr) as [_ Ht Hn _].
  pose proof (reachable_settled rt W Hr) as [Hp _ _].
  split; [done|]. intros d s. split; [apply Ht|].
  intros (st & Hs & Hd). by eapply Hp.
Qed.

Lemma one_timer_per_stream_witness :
  NoDup (timers (Write 0%nat bytes_b (Write 0%nat bytes_a sample_world).2).2).*2.
Proof.
  apply (one_timer_per_stream sample_rt).
  apply reach_Write, reach_Write, sample_world_reachable.
Defined.




(** ** Bytes *)

Lemma flushes_same_sink s W W' : sink W' = sink W → flushes s W' = flushes s W.
Proof. unfold flushes. by intros ->. Qed.

Lemma wrote_cons s c cs : wrote s (c :: cs) = wrote s [c] ++ wrote s cs.
Proof.
  destruct c as [n|s' p| |τ]; cbn; try done.
  case_decide; [by rewrite app_nil_r|done].
Qed.


(** One call, and the bytes of a stream in the sink and in the buffer. *)
Lemma perform_total rt W c s st :
  consistent W → heap W !! s = Some st →
  ∃ st', heap (perform rt W c) !! s = Some st' ∧
         delivered s (perform rt W c) ++ w_b st' =
         (delivered s W ++ w_b st) ++ wrote s [c].
Proof.
  intros Hc Hs. unfold delivered.
  destruct c as [n|s' p| |τ]; unfold perform; cbn [wrote].
  - destruct (Stream_frame rt n W) as (Hsink & _ & _ & _ & _ & Hcell).
    exists st. rewrite (flushes_same_sink _ _ _ Hsink), app_nil_r. auto.
  - destruct (Write_frame s' p W) as (Hsink & _ & _).
    destruct (Write_buffer s' p W s st Hs) as (st' & Hst' & Hb).
    exists st'. rewrite (flushes_same_sink _ _ _ Hsink), Hb.
    split; [done|]. case_decide; by rewrite ?app_nil_r, ?app_assoc.
  - destruct (refreshColors_frame rt W) as (Hsink & _ & _ & _ & _ & Hcell & _).
    destruct (Hcell _ _ Hs) as [c Hc']. eexists. split; [exact Hc'|].
    rewrite (flushes_same_sink _ _ _ Hsink), app_nil_r. done.
  - destruct (advance_stream τ W s st Hc Hs)
      as [(D & _ & _ & _ & Hcell & Hfl)|(_ & Hcell & Hfl)];
      eexists; (split; [exact Hcell|]); rewrite Hfl, ?app_nil_r; [|done].
    rewrite join_app. cbn. by rewrite !app_nil_r.
Qed.

Lemma perform_all_total rt W cs s st :
  consistent W → heap W !! s = Some st →
  ∃ st', heap (perform_all rt W cs) !! s = Some st' ∧
         delivered s (perform_all rt W cs) ++ w_b st' =
         delivered s W ++ w_b st ++ wrote s cs.
Proof.
  revert W st. induction cs as [|c cs IH]; intros W st Hc Hs.
  { exists st. by rewrite !app_nil_r. }
  destruct (perform_total rt W c s st Hc Hs) as (st1 & Hs1 & Ht1).
  destruct (IH _ _ (perform_consistent rt W c Hc) Hs1) as (st' & Hs' & Ht').
  change (perform_all rt W (c :: cs))
    with (perform_all rt (perform rt W c) cs).
  exists st'. split; [done|].
  rewrite Ht', (wrote_cons s c cs).
  rewrite (app_assoc (delivered s (perform rt W c))), Ht1.
  by rewrite <- !app_assoc.
Qed.

(** With calls and timer callbacks that do not overlap, no byte of a
    stream is lost, repeated or moved: after any calls, what the sink
    has received from the stream followed by what its buffer holds is
    what it was before followed by the bytes written since, in the order
    they were written. *)
Theorem bytes_conserved rt W s st cs :
  consistent W → heap W !! s = Some st →
  delivered s (perform_all rt W cs) ++ buffered s (perform_all rt W cs) =
  delivered s W ++ w_b st ++ wrote s cs.
Proof.
  intros Hc Hs.
  destruct (perform_all_total rt W cs s st Hc Hs) as (st' & Hs' & Ht).
  unfold buffered. by rewrite Hs'.
Qed.

Lemma bytes_conserved_witness :
  delivered 0%nat
    (perform_all sample_rt sample_world
       [CWrite 0%nat bytes_a; CTick (ms 10); CWrite 1%nat bytes_b;
        CWrite 0%nat bytes_b]) ++
  buffered 0%nat
    (perform_all sample_rt sample_world
       [CWrite 0%nat bytes_a; CTick (ms 10); CWrite 1%nat bytes_b;
        CWrite 0%nat bytes_b]) =
  bytes_a ++ bytes_b.
Proof.
  exact (bytes_conserved sample_rt sample_world 0%nat
           {| name := "web"; clr := {| R := 0; G := 0; B := 0 |};
              w_b := []; w_t := None |}
           [CWrite 0%nat bytes_a; CTick (ms 10); CWrite 1%nat bytes_b;
            CWrite 0%nat bytes_b]
           (reachable_consistent sample_rt _ sample_world_reachable)
           eq_refl).
Defined.



(** ** The sink *)

Lemma flush_callback_sink s W :
  sink (exec_all s flush_callback W) =
  sink W ++ (if heap W !! s is Some st then [(s, w_b st)] else []).
Proof.
  destruct (heap W !! s) as [st|] eqn:Hs.
  - by rewrite (flush_callback_run _ _ _ Hs).
  - by rewrite (flush_callback_absent _ _ Hs), app_nil_r.
Qed.

Lemma fire_due_sink τ q W :
  sink W `prefix_of` sink (fire_due τ q W).2.
Proof.
  revert W. induction q as [|[d s] q IH]; intros W; [done|].
  cbn [fire_due]. case_decide.
  - etrans; [|apply IH]. rewrite flush_callback_sink. by apply prefix_app_r.
  - specialize (IH W). by destruct (fire_due τ q W).
Qed.

(** Every timer that fires for an allocated stream makes one call. *)
Lemma fire_due_sink_length τ q W :
  (∀ d s, (d, s) ∈ q → is_Some (heap W !! s)) →
  length (sink (fire_due τ q W).2) =
  (length (sink W) + length (filter (λ e : Z * loc, (e.1 ≤ τ)%Z) q))%nat.
Proof.
  revert W. induction q as [|[d s] q IH]; intros W Hq; [cbn; lia|].
  cbn [fire_due]. case_decide as Hd.
  - rewrite filter_cons_True by done. rewrite IH.
    + rewrite flush_callback_sink.
      destruct (Hq d s (list_elem_of_here _ _)) as [st ->].
      rewrite length_app. cbn. lia.
    + intros d' s' Hin.
      pose proof (flush_callback_cell s' s W) as Hc.
      destruct (Hq d' s' (list_elem_of_further _ _ _ Hin)) as [st' Hst'].
      rewrite Hst' in Hc. destruct Hc as (? & -> & _). eauto.
  - rewrite filter_cons_False by done.
    specialize (IH W). destruct (fire_due τ q W) as [r W'] eqn:Hf.
    cbn [snd] in *. apply IH. intros d' s' Hin. eapply Hq.
    by apply list_elem_of_further.
Qed.

(** The sink is called by timer callbacks only, once by each: a
    registration, a [Write] and a colour refresh leave what it has
    received as it is; the clock moving on adds one call for each timer
    that is due; and after any calls what it had received is still the
    beginning of what it has received. *)
Theorem sink_only_grows rt W cs τ :
  (∀ n, sink (Stream rt n W).2 = sink W) ∧
  (∀ s p, sink (Write s p W).2 = sink W) ∧
  sink (refreshColors rt W).2 = sink W ∧
  (consistent W →
   length (sink (advance τ W)) =
   (length (sink W) + length (filter (λ e : Z * loc, (e.1 ≤ τ)%Z) (timers W)))%nat) ∧
  sink W `prefix_of` sink (perform_all rt W cs).
Proof.
  split; [intros n; apply Stream_frame|].
  split; [intros s p; apply Write_frame|].
  split; [apply refreshColors_frame|]. split.
  - intros Hc. rewrite advance_unfold. cbn [sink set_now set_timers].
    apply fire_due_sink_length. intros d s Hin.
    destruct (timers_set W Hc _ _ Hin) as (st & -> & _). eauto.
  - revert W. induction cs as [|c cs IH]; intros W; [done|].
    etrans; [|apply IH]. destruct c as [n|s p| |τ']; unfold perform.
    + by destruct (Stream_frame rt n W) as (-> & _).
    + by destruct (Write_frame s p W) as (-> & _).
    + by destruct (refreshColors_frame rt W) as (-> & _).
    + rewrite advance_unfold. apply fire_due_sink.
Qed.

Lemma sink_only_grows_witness :
  length (sink (advance (ms 10) (Write 0%nat bytes_a sample_world).2)) =
  (length (sink (Write 0%nat bytes_a sample_world).2) +
   length (filter (λ e : Z * loc, (e.1 ≤ ms 10)%Z)
             (timers (Write 0%nat bytes_a sample_world).2)))%nat.
Proof.
  destruct (sink_only_grows sample_rt (Write 0%nat bytes_a sample_world).2
              [] (ms 10)) as (_ & _ & _ & H & _).
  apply H, (reachable_consistent sample_rt), reach_Write,
    sample_world_reachable.
Defined.

(** A [Write] of no bytes to an idle stream returns 0 and no error, and
    schedules a flush all the same: at the end of the window the sink
    is called once, with no bytes. *)
Theorem empty_write_flushes W s τ0 τ :
  consistent W → idle s W → now W ≤ τ0 →
  τ0 + time_Millisecond * 10 ≤ τ →
  (Write s [] (advance τ0 W)).1 = Ret (0, None) ∧
  (∃ d, (d, s) ∈ timers (run W [(τ0, AWrite s [])])) ∧
  flushes s (advance τ (run W [(τ0, AWrite s [])])) = flushes s W ++ [[]].
Proof.
  intros Hc Hidle Hnow Hτ.
  destruct (idle_advance τ0 W s Hc Hidle) as [Hidle0 Hfl0].
  pose proof (Write_idle s [] (advance τ0 W)
                (advance_consistent τ0 W Hc) Hidle0) as Hf.
  split.
  { destruct Hidle0 as (st & Hst & _). apply (Write_returns s []). eauto. }
  split.
  { destruct Hf as (_ & _ & Hin & _). eauto. }
  destruct (window_flush W s τ0 [] [] τ Hc Hidle Hnow) as (_ & _ & Hfl & _);
    [by intros a Ha%elem_of_nil|done|].
  exact Hfl.
Qed.

Lemma empty_write_flushes_witness :
  flushes 0%nat (advance (ms 10) (run sample_world [(0, AWrite 0%nat [])])) =
  [[]].
Proof.
  destruct (empty_write_flushes sample_world 0%nat 0 (ms 10)
              (reachable_consistent _ _ sample_world_reachable)
              sample_world_idle) as (_ & _ & H).
  - vm_compute. discriminate.
  - vm_compute. discriminate.
  - exact H.
Defined.

(** ** Colours again *)

(** In a consistent world [refreshColors] runs to its end whatever the
    order of the [range]; a second call right after it does nothing; a
    call that recolours draws as many colours as there are streams; and
    a call touches neither the buffers, nor the timers, nor the sink,
    nor the names. *)
Theorem refreshColors_settles rt W :
  consistent W →
  range_order rt (streams (mux W)) ≡ₚ map_to_list (streams (mux W)) →
  let W' := (refreshColors rt W).2 in
  (refreshColors rt W).1 = Ret () ∧
  refreshColors rt W' = (Ret (), W') ∧
  draws W' =
    (draws W + (if isDirty (mux W) then size (streams (mux W)) else 0))%nat ∧
  sink W' = sink W ∧ timers W' = timers W ∧ now W' = now W ∧
  ∀ s st, heap W !! s = Some st →
    ∃ st', heap W' !! s = Some st' ∧
           name st' = name st ∧ w_b st' = w_b st ∧ w_t st' = w_t st.
Proof.
  intros Hc Hperm. cbn zeta.
  destruct (refreshColors_frame rt W) as (Hsink & Ht & Hnow & _ & _ & Hcell & _).
  assert ((refreshColors rt W).1 = Ret () ∧
          isDirty (mux (refreshColors rt W).2) = false ∧
          draws (refreshColors rt W).2 =
            (draws W + (if isDirty (mux W) then size (streams (mux W)) else 0))%nat)
    as (Hret & Hclean & Hdraws).
  { destruct (isDirty (mux W)) eqn:Hd.
    - destruct (range_streams rt W Hc Hperm) as (Hlen & _ & Hall & _).
      destruct (recolor_ok (FastHappyPalette rt (size (streams (mux W))) W).1
                  (range_order rt (streams (mux W))).*2 0 (heap W))
        as (h' & Hr & _); [rewrite FastHappyPalette_length, Hlen; cbn; lia|done|].
      unfold refreshColors. rewrite Hd. cbn [negb].
      cbn [FastHappyPalette heap set_draws fst] in *. by rewrite Hr.
    - rewrite (refreshColors_clean rt W Hd). cbn. split; [done|]. split; [done|lia]. }
  split; [done|]. split; [by apply refreshColors_clean|].
  split; [done|]. split; [done|]. split; [done|]. split; [done|].
  intros s st Hs. destruct (Hcell _ _ Hs) as [c ->]. eauto.
Qed.

Lemma refreshColors_settles_witness :
  refreshColors sample_rt (refreshColors sample_rt sample_world).2 =
  (Ret (), (refreshColors sample_rt sample_world).2).
Proof.
  destruct (refreshColors_settles sample_rt sample_world) as (_ & H & _).
  - apply (reachable_consistent sample_rt), sample_world_reachable.
  - reflexivity.
  - exact H.
Defined.

